(** * Verification of [mutable_sql_detector.py]

    The module classifies a SQL string with regular expressions:
    [detect_mutating_keywords], [check_sql_injection_risk] and
    [detect_transaction_bypass_attempt].  This development embeds the
    regular expressions of the module as syntax trees, gives them the
    backtracking semantics of Python's [re] engine, embeds the three entry
    points over the module's tables, and proves properties of them.

    Characters.  A Python [str] is a sequence of code points.  Here a
    character is an [ascii], read as a code point in the range 0..255
    (Latin-1), and the classes [\s], [\d], [\w] and the case folding of
    [re.IGNORECASE] are those of Python's Unicode tables on that range.
    The theorems therefore speak about strings whose code points are below
    256. *)

From Stdlib Require Import Ascii NArith.
From stdpp Require Import gmap strings list sorting.

Local Open Scope N_scope.

(** ** Characters and the character classes of [re] *)

Definition code (c : ascii) : N := N_of_ascii c.

Definition between (lo hi : N) (c : ascii) : bool :=
  (lo <=? code c) && (code c <=? hi).

(** [\s] on a [str] pattern: [str.isspace]. *)
Definition is_space (c : ascii) : bool :=
  between 9 13 c || between 28 32 c || (code c =? 133) || (code c =? 160).

(** [\d] on a [str] pattern: the decimal digits. *)
Definition is_digit (c : ascii) : bool := between 48 57 c.

(** [str.isalnum] on 0..255: letters, digits and the numeric signs of
    Latin-1. *)
Definition is_alnum (c : ascii) : bool :=
  between 48 57 c || between 65 90 c || between 97 122 c
  || (code c =? 170) || between 178 179 c || (code c =? 181)
  || between 185 186 c || between 188 190 c
  || between 192 214 c || between 216 246 c || between 248 255 c.

(** [\w] on a [str] pattern: alphanumeric or the underscore. *)
Definition is_word (c : ascii) : bool := is_alnum c || (code c =? 95).

(** The simple lower-case mapping used by [re.IGNORECASE]. *)
Definition tolower (c : ascii) : ascii :=
  if between 65 90 c || (between 192 222 c && negb (code c =? 215))
  then ascii_of_N (code c + 32) else c.

(** [str.upper] on one character.  The capitals of U+00B5, U+00DF and
    U+00FF lie outside the range 0..255 (or are two characters); those three
    are left unchanged here.  [upper] is only ever applied to the text of a
    keyword match, which holds none of them (lemma [keyword_like_upper]). *)
Definition upper_char (c : ascii) : ascii :=
  if between 97 122 c || (between 224 254 c && negb (code c =? 247))
  then ascii_of_N (code c - 32) else c.

Local Close Scope N_scope.

Definition LF : ascii := ascii_of_nat 10.

(** Python strings at the interface, lists of characters inside the engine. *)
Definition chars (s : string) : list ascii :=
  Stdlib.Strings.String.list_ascii_of_string s.
Definition text (l : list ascii) : string :=
  Stdlib.Strings.String.string_of_list_ascii l.

Definition upper (s : string) : string := text (upper_char <$> chars s).

(** ** Regular expressions *)

Record flags := Flags { ignorecase : bool; dotall : bool }.

Inductive cclass :=
  | Space              (* \s *)
  | NonSpace           (* \S *)
  | Digit              (* \d *)
  | Word               (* \w *)
  | AnyChar            (* .  *)
  | NotChar (c : ascii) (* [^c] *).

(** The syntax the module's patterns use.  A repetition always has a single
    character class as its body ([\s*], [\s+], [\d+], [\w+], [.*], [.*?],
    [[^']+]); [min] is 0 for [*] and 1 for [+]. *)
Inductive regex :=
  | Eps
  | Lit (c : ascii)
  | Cls (k : cclass)
  | Seq (r1 r2 : regex)
  | Alt (r1 r2 : regex)
  | Rep (greedy : bool) (min : nat) (k : cclass)
  | Bol                (* ^  *)
  | Eol                (* $  *)
  | WordB              (* \b *)
  | Ahead (r : regex)     (* (?=r) *)
  | NotAhead (r : regex)  (* (?!r) *).

(** [(r)]: no pattern of the module has a back-reference, so a capturing
    group matches as its body does. *)
Definition Group (r : regex) : regex := r.
(** [(r)?], greedy: the body first, then nothing. *)
Definition Opt (r : regex) : regex := Alt r Eps.
Definition Star (k : cclass) : regex := Rep true 0 k.
Definition Plus (k : cclass) : regex := Rep true 1 k.
Definition LazyStar (k : cclass) : regex := Rep false 0 k.

Fixpoint seqs (rs : list regex) : regex :=
  match rs with
  | [] => Eps
  | [r] => r
  | r :: rs' => Seq r (seqs rs')
  end.

(** [r1|r2|...|rn]; the list is never empty in the module. *)
Fixpoint alts (rs : list regex) : regex :=
  match rs with
  | [] => NotAhead Eps
  | [r] => r
  | r :: rs' => Alt r (alts rs')
  end.

(** A run of literal characters. *)
Definition lits (s : string) : regex := seqs (Lit <$> chars s).

Definition lit_eq (fl : flags) (c x : ascii) : bool :=
  if ignorecase fl then bool_decide (tolower x = tolower c)
  else bool_decide (x = c).

Definition in_class (fl : flags) (k : cclass) (x : ascii) : bool :=
  match k with
  | Space => is_space x
  | NonSpace => negb (is_space x)
  | Digit => is_digit x
  | Word => is_word x
  | AnyChar => dotall fl || negb (bool_decide (x = LF))
  | NotChar c => negb (bool_decide (x = c))
  end.

(** ** The matching engine

    A position in the subject is the character before it (if any) and the
    characters from it on.  [m fl r prev s] lists the positions where a
    match of [r] starting at [(prev, s)] can end, in the order in which the
    backtracking engine tries them: the head is the match [re] reports. *)

Definition position : Type := option ascii * list ascii.

Definition word_before (prev : option ascii) : bool :=
  match prev with Some c => is_word c | None => false end.
Definition word_after (s : list ascii) : bool :=
  match s with c :: _ => is_word c | [] => false end.

Fixpoint rep (greedy : bool) (test : ascii → bool) (min : nat)
    (prev : option ascii) (s : list ascii) : list position :=
  let stop := match min with 0 => [(prev, s)] | S _ => [] end in
  match s with
  | c :: s' =>
      if test c then
        let more := rep greedy test (pred min) (Some c) s' in
        if greedy then more ++ stop else stop ++ more
      else stop
  | [] => stop
  end.

Fixpoint m (fl : flags) (r : regex) (prev : option ascii) (s : list ascii)
    : list position :=
  match r with
  | Eps => [(prev, s)]
  | Lit c =>
      match s with
      | x :: s' => if lit_eq fl c x then [(Some x, s')] else []
      | [] => []
      end
  | Cls k =>
      match s with
      | x :: s' => if in_class fl k x then [(Some x, s')] else []
      | [] => []
      end
  | Seq r1 r2 => m fl r1 prev s ≫= (λ st, m fl r2 st.1 st.2)
  | Alt r1 r2 => m fl r1 prev s ++ m fl r2 prev s
  | Rep g n k => rep g (in_class fl k) n prev s
  | Bol => match prev with None => [(prev, s)] | Some _ => [] end
  | Eol =>
      match s with
      | [] => [(prev, s)]
      | [c] => if bool_decide (c = LF) then [(prev, s)] else []
      | _ => []
      end
  | WordB => if xorb (word_before prev) (word_after s) then [(prev, s)] else []
  | Ahead r' => match m fl r' prev s with [] => [] | _ :: _ => [(prev, s)] end
  | NotAhead r' => match m fl r' prev s with [] => [(prev, s)] | _ :: _ => [] end
  end.

(** A compiled pattern object. *)
Record compiled := Compiled { c_flags : flags; c_re : regex }.

(** The first way to match at this position; with [must_advance] a match
    that ends where it starts is rejected and the engine backtracks. *)
Definition first_match (fl : flags) (r : regex) (must_advance : bool)
    (prev : option ascii) (s : list ascii) : option position :=
  head (filter (λ st, must_advance = false ∨ length st.2 < length s)
          (m fl r prev s)).

(** Leftmost match from a position on: the matched text and where it ends.
    [must_advance] applies to the first position only. *)
Fixpoint scan (fl : flags) (r : regex) (must_advance : bool)
    (prev : option ascii) (s : list ascii) : option (list ascii * position) :=
  match first_match fl r must_advance prev s with
  | Some st => Some (take (length s - length st.2) s, st)
  | None =>
      match s with
      | [] => None
      | c :: s' => scan fl r false (Some c) s'
      end
  end.

(** The truth value of what [search] returns: a match object is true,
    [None] is false. *)
Definition truthy {A} (o : option A) : bool :=
  match o with Some _ => true | None => false end.

(** [pattern.search(sql)] / [re.search(pattern, sql)]. *)
Definition re_search (p : compiled) (sql : string)
    : option (list ascii * position) :=
  scan (c_flags p) (c_re p) false None (chars sql).

(** [pattern.findall(sql)]: search, record the match, resume where it
    ended, and after an empty match insist on advancing.  The loop is
    bounded by [fuel]; [None] means the bound was too small.  Each pattern
    given to [findall] here has one group; the recorded text is that of the
    whole match, which for [MUTATING_PATTERN] is the text of its group (the
    [\b] around it are empty), and for the other caller only the number of
    matches is used. *)
Fixpoint findall_loop (fuel : nat) (fl : flags) (r : regex)
    (must_advance : bool) (prev : option ascii) (s : list ascii)
    : option (list string) :=
  match fuel with
  | 0 => None
  | S fuel' =>
      match scan fl r must_advance prev s with
      | None => Some []
      | Some (t, st) =>
          match findall_loop fuel' fl r (bool_decide (t = [])) st.1 st.2 with
          | Some found => Some (text t :: found)
          | None => None
          end
      end
  end.

Definition findall (p : compiled) (sql : string) : option (list string) :=
  let s := chars sql in
  findall_loop (2 * length s + 2) (c_flags p) (c_re p) false None s.

(** ** The module's tables *)

(** Shorthands for the pieces that recur in the patterns. *)
Definition ws : regex := Plus Space.   (* \s+ *)
Definition ws0 : regex := Star Space.  (* \s* *)
Definition words (l : list string) : regex := Group (alts (lits <$> l)).

Definition IGNORECASE : flags := Flags true false.
Definition NOFLAGS : flags := Flags false false.

(** The elements of the set display of [MUTATING_KEYWORDS], as the source
    lists them. *)
Definition source_order : list string :=
  [ "INSERT"; "UPDATE"; "DELETE"; "REPLACE"; "TRUNCATE"; "CREATE"; "DROP";
    "ALTER"; "RENAME"; "GRANT"; "REVOKE"; "LOAD DATA"; "LOAD XML";
    "INSTALL PLUGIN"; "UNINSTALL PLUGIN"; "COPY"; "MERGE"; "UPSERT" ].

(** [MUTATING_KEYWORDS], a Python [set]. *)
Definition MUTATING_KEYWORDS_init : gset string := list_to_set source_order.

(** [(?i)\b(k1|...|kn)\b] with the keywords escaped by [re.escape] (each
    character of a keyword stands for itself) and joined in the order in
    which the set is iterated, [kw_iter].  Python does not fix that order. *)
Definition MUTATING_PATTERN_init (kw_iter : list string) : compiled :=
  Compiled IGNORECASE (seqs [WordB; Group (alts (lits <$> kw_iter)); WordB]).

Definition ddl_objects : list string :=
  [ "TABLE"; "VIEW"; "INDEX"; "TRIGGER"; "PROCEDURE"; "FUNCTION"; "EVENT";
    "SCHEMA"; "DATABASE"; "ROLE"; "USER" ].
Definition alter_objects : list string :=
  [ "TABLE"; "VIEW"; "TRIGGER"; "PROCEDURE"; "FUNCTION"; "EVENT";
    "SCHEMA"; "DATABASE"; "ROLE"; "USER" ].

(** [DDL_REGEX] (IGNORECASE | VERBOSE: blanks in the pattern are layout). *)
Definition DDL_REGEX_init : compiled :=
  Compiled IGNORECASE
    (seqs [ Bol; ws0;
            Group (alts
              [ seqs [lits "CREATE"; ws; words ddl_objects];
                seqs [lits "DROP"; ws; words ddl_objects];
                seqs [lits "ALTER"; ws; words alter_objects];
                seqs [lits "RENAME"; ws; words ["TABLE"]];
                lits "TRUNCATE" ]);
            WordB ]).

(** [PERMISSION_REGEX]. *)
Definition PERMISSION_REGEX_init : compiled :=
  Compiled IGNORECASE
    (seqs [ Bol; ws0;
            Group (alts
              [ seqs [lits "GRANT"; Opt (Group (seqs [ws; lits "ROLE"]))];
                seqs [lits "REVOKE"; Opt (Group (seqs [ws; lits "ROLE"]))];
                seqs [lits "CREATE"; ws; words ["USER"; "ROLE"]];
                seqs [lits "DROP"; ws; words ["USER"; "ROLE"]];
                seqs [lits "SET"; ws; lits "DEFAULT"; ws; lits "ROLE"];
                seqs [lits "SET"; ws; lits "PASSWORD"];
                seqs [lits "ALTER"; ws; lits "USER"];
                seqs [lits "RENAME"; ws; lits "USER"] ]);
            WordB ]).

(** [SYSTEM_REGEX]. *)
Definition SYSTEM_REGEX_init : compiled :=
  Compiled IGNORECASE
    (seqs [ Bol; ws0;
            Group (alts
              [ seqs [lits "SET"; ws; words ["GLOBAL"; "PERSIST"; "SESSION"]];
                seqs [lits "RESET"; ws; words ["PERSIST"; "MASTER"; "SLAVE"]];
                seqs [lits "FLUSH"; ws;
                      Opt (words ["PRIVILEGES"; "HOSTS"; "LOGS"; "STATUS";
                                  "TABLES"])];
                seqs [lits "INSTALL"; ws; lits "PLUGIN"];
                seqs [lits "UNINSTALL"; ws; lits "PLUGIN"];
                seqs [lits "CHANGE"; ws; lits "MASTER"; ws; lits "TO"];
                seqs [lits "START"; ws; lits "SLAVE"];
                seqs [lits "STOP"; ws; lits "SLAVE"];
                seqs [lits "SET"; ws; lits "GTID_PURGED"];
                seqs [lits "PURGE"; ws; lits "BINARY"; ws; lits "LOGS"];
                seqs [lits "LOAD"; ws; lits "DATA"; ws; lits "INFILE"];
                seqs [lits "SELECT"; ws; Star AnyChar; ws; lits "INTO"; ws;
                      lits "OUTFILE"];
                seqs [lits "USE"; ws; Plus Word];
                seqs [lits "SET"; ws; lits "autocommit"];
                seqs [lits "COPY"; ws; Star AnyChar; ws; lits "FROM"];
                seqs [lits "COPY"; ws; Star AnyChar; ws; lits "TO"] ]);
            WordB ]).

(** [TRANSACTION_CONTROL_REGEX]. *)
Definition TRANSACTION_CONTROL_REGEX_init : compiled :=
  Compiled IGNORECASE
    (seqs [ Bol; ws0;
            Group (alts
              [ seqs [lits "BEGIN";
                      Opt (Group (seqs [ws; lits "TRANSACTION"]));
                      Opt (Group (seqs [ws; lits "READ"; ws; lits "ONLY"]))];
                seqs [lits "COMMIT";
                      Opt (Group (seqs [ws; lits "TRANSACTION"]))];
                seqs [lits "ROLLBACK";
                      Opt (Group (seqs [ws; lits "TRANSACTION"]))];
                lits "SAVEPOINT";
                seqs [lits "RELEASE"; ws; lits "SAVEPOINT"];
                seqs [lits "START"; ws; lits "TRANSACTION"] ]);
            WordB ]).

(** The negative look-ahead shared by the stacked-statement and the commit
    patterns: not at the end of the subject, and no [--] and no block
    comment opens here, blanks skipped. *)
Definition not_trailing : regex :=
  NotAhead (Group (alts [ Eol;
                          seqs [ws0; lits "--"];
                          seqs [ws0; lits "/*"] ])).

(** The stacked-statement pattern: [;], [\s*], the look-ahead above, and
    the look-ahead [(?=\S)]. *)
Definition stacked_re : regex :=
  seqs [Lit ";"; ws0; not_trailing; Ahead (Cls NonSpace)].

(** [SUSPICIOUS_PATTERNS]: each entry is the pattern text, which the
    finding's message quotes, with the pattern it denotes. *)
Definition SUSPICIOUS_PATTERNS_init : list (string * compiled) :=
  [ ("(?i)'.*?--",
     Compiled IGNORECASE (seqs [Lit "'"; LazyStar AnyChar; lits "--"]));
    ("(?i)\bor\b\s+\d+\s*=\s*\d+",
     Compiled IGNORECASE
       (seqs [WordB; lits "or"; WordB; ws; Plus Digit; ws0; Lit "="; ws0;
              Plus Digit]));
    ("(?i)\bor\b\s*'[^']+'\s*=\s*'[^']+'",
     Compiled IGNORECASE
       (seqs [WordB; lits "or"; WordB; ws0;
              Lit "'"; Plus (NotChar "'"); Lit "'"; ws0; Lit "="; ws0;
              Lit "'"; Plus (NotChar "'"); Lit "'"]));
    ("(?i)\bunion\b.*\bselect\b",
     Compiled IGNORECASE
       (seqs [WordB; lits "union"; WordB; Star AnyChar;
              WordB; lits "select"; WordB]));
    ("(?i)\bdrop\b", Compiled IGNORECASE (seqs [WordB; lits "drop"; WordB]));
    ("(?i)\btruncate\b",
     Compiled IGNORECASE (seqs [WordB; lits "truncate"; WordB]));
    ("(?i)\bgrant\b|\brevoke\b",
     Compiled IGNORECASE
       (alts [ seqs [WordB; lits "grant"; WordB];
               seqs [WordB; lits "revoke"; WordB] ]));
    (";\s*(?!($|\s*--|\s*/\*))(?=\S)", Compiled NOFLAGS stacked_re);
    ("(?i)\bsleep\s*\(",
     Compiled IGNORECASE (seqs [WordB; lits "sleep"; ws0; Lit "("]));
    ("(?i)\bpg_sleep\s*\(",
     Compiled IGNORECASE (seqs [WordB; lits "pg_sleep"; ws0; Lit "("]));
    ("(?i)\bload_file\s*\(",
     Compiled IGNORECASE (seqs [WordB; lits "load_file"; ws0; Lit "("]));
    ("(?i)\binto\s+outfile\b",
     Compiled IGNORECASE (seqs [WordB; lits "into"; ws; lits "outfile"; WordB]));
    ("(?i)\bcopy\s+.*\s+from\b",
     Compiled IGNORECASE
       (seqs [WordB; lits "copy"; ws; Star AnyChar; ws; lits "from"; WordB]));
    ("(?i)\bcopy\s+.*\s+to\b",
     Compiled IGNORECASE
       (seqs [WordB; lits "copy"; ws; Star AnyChar; ws; lits "to"; WordB]));
    ("(?i)\b(begin|commit|rollback)\b.*;\s*\w+",
     Compiled IGNORECASE
       (seqs [WordB; words ["begin"; "commit"; "rollback"]; WordB;
              Star AnyChar; Lit ";"; ws0; Plus Word])) ].

(** The module-level names, as one store. *)
Record tables := Tables {
  MUTATING_KEYWORDS : gset string;
  MUTATING_PATTERN : compiled;
  DDL_REGEX : compiled;
  PERMISSION_REGEX : compiled;
  SYSTEM_REGEX : compiled;
  TRANSACTION_CONTROL_REGEX : compiled;
  SUSPICIOUS_PATTERNS : list (string * compiled)
}.

(** The store after the module has been imported. *)
Definition module_init (kw_iter : list string) : tables :=
  {| MUTATING_KEYWORDS := MUTATING_KEYWORDS_init;
     MUTATING_PATTERN := MUTATING_PATTERN_init kw_iter;
     DDL_REGEX := DDL_REGEX_init;
     PERMISSION_REGEX := PERMISSION_REGEX_init;
     SYSTEM_REGEX := SYSTEM_REGEX_init;
     TRANSACTION_CONTROL_REGEX := TRANSACTION_CONTROL_REGEX_init;
     SUSPICIOUS_PATTERNS := SUSPICIOUS_PATTERNS_init |}.

(** ** Calls: a computation reads and may change the store, and may fail to
    finish *)

Definition M (A : Type) : Type := tables → option (A * tables).

Definition ret {A} (a : A) : M A := λ T, Some (a, T).
Definition bind {A B} (c : M A) (k : A → M B) : M B :=
  λ T, match c T with Some (a, T') => k a T' | None => None end.
(** Read a module-level name. *)
Definition global {A} (name : tables → A) : M A := λ T, Some (name T, T).
(** A library call that is bounded by fuel. *)
Definition bounded {A} (o : option A) : M A :=
  λ T, match o with Some a => Some (a, T) | None => None end.

Notation "'do' x <- c ; k" := (bind c (λ x, k))
  (at level 10, x name, c at level 100, k at level 200).

(** The result of a call made right after import. *)
Definition call {A} (kw_iter : list string) (c : M A) : option A :=
  fst <$> c (module_init kw_iter).


(** ** The entry points *)

(** [sorted({k.upper() for k in keyword_matches})]. *)
Definition sorted_upper_set (keyword_matches : list string) : list string :=
  let s : gset string := list_to_set (upper <$> keyword_matches) in
  merge_sort String.le (elements s).

Definition detect_mutating_keywords (sql : string) : M (list string) :=
  let matched := [] in
  do ddl <- global DDL_REGEX;
  let matched := if truthy (re_search ddl sql) then matched ++ ["DDL"] else matched in
  do permission <- global PERMISSION_REGEX;
  let matched :=
    if truthy (re_search permission sql) then matched ++ ["PERMISSION"] else matched in
  do system <- global SYSTEM_REGEX;
  let matched :=
    if truthy (re_search system sql) then matched ++ ["SYSTEM"] else matched in
  do transaction_control <- global TRANSACTION_CONTROL_REGEX;
  let matched :=
    if truthy (re_search transaction_control sql)
    then matched ++ ["TRANSACTION_CONTROL"] else matched in
  do mutating <- global MUTATING_PATTERN;
  do keyword_matches <- bounded (findall mutating sql);
  let matched :=
    match keyword_matches with
    | [] => matched
    | _ :: _ => matched ++ sorted_upper_set keyword_matches
    end in
  ret matched.

(** The dictionary a finding is. *)
Record finding := Finding {
  f_type : string;
  f_message : string;
  f_severity : string
}.

Definition issue (pattern : string) : finding :=
  {| f_type := "sql";
     f_message := "Suspicious pattern detected: " +:+ pattern;
     f_severity := "high" |}.

(** The [for pattern in SUSPICIOUS_PATTERNS] loop with its [break]. *)
Fixpoint scan_patterns (patterns : list (string * compiled)) (sql : string)
    (issues : list finding) : list finding :=
  match patterns with
  | [] => issues
  | (pattern, p) :: rest =>
      if truthy (re_search p sql) then issues ++ [issue pattern]
      else scan_patterns rest sql issues
  end.

Definition check_sql_injection_risk (sql : string) : M (list finding) :=
  let issues := [] in
  do patterns <- global SUSPICIOUS_PATTERNS;
  ret (scan_patterns patterns sql issues).

(** [(?i)\bcommit\b.*?;\s*], the look-ahead [not_trailing], [\w+];
    compiled with [re.DOTALL]. *)
Definition commit_bypass_pattern : compiled :=
  Compiled (Flags true true)
    (seqs [WordB; lits "commit"; WordB; LazyStar AnyChar; Lit ";"; ws0;
           not_trailing; Plus Word]).

(** The stacked-statement pattern again, compiled without flags. *)
Definition multiple_statements : compiled := Compiled NOFLAGS stacked_re.

Definition detect_transaction_bypass_attempt (sql : string) : M bool :=
  if truthy (re_search commit_bypass_pattern sql) then ret true
  else
    do found <- bounded (findall multiple_statements sql);
    ret (0 <? length found).

(** * The notions the statements use *)

(** ** What a pattern matches

    [matches fl r prev t s]: at a position preceded by [prev], the pattern
    [r] can match the text [t] when [s] follows it. *)

Fixpoint lastp (prev : option ascii) (t : list ascii) : option ascii :=
  match t with
  | [] => prev
  | c :: t' => lastp (Some c) t'
  end.

Fixpoint matches (fl : flags) (r : regex) (prev : option ascii)
    (t s : list ascii) : Prop :=
  match r with
  | Eps => t = []
  | Lit c => ∃ x, t = [x] ∧ lit_eq fl c x = true
  | Cls k => ∃ x, t = [x] ∧ in_class fl k x = true
  | Seq r1 r2 =>
      ∃ t1 t2, t = t1 ++ t2 ∧ matches fl r1 prev t1 (t2 ++ s)
               ∧ matches fl r2 (lastp prev t1) t2 s
  | Alt r1 r2 => matches fl r1 prev t s ∨ matches fl r2 prev t s
  | Rep _ n k => n ≤ length t ∧ Forall (λ x, in_class fl k x = true) t
  | Bol => t = [] ∧ prev = None
  | Eol => t = [] ∧ (s = [] ∨ s = [LF])
  | WordB => t = [] ∧ word_before prev ≠ word_after s
  | Ahead r' => t = [] ∧ ∃ t' s', s = t' ++ s' ∧ matches fl r' prev t' s'
  | NotAhead r' => t = [] ∧ ¬ ∃ t' s', s = t' ++ s' ∧ matches fl r' prev t' s'
  end.

(** A pattern that cannot match the empty text. *)
Definition never_empty (fl : flags) (r : regex) : Prop :=
  ∀ prev t s, matches fl r prev t s → t ≠ [].

(** The pattern matches the text [t] of [s] that follows [pre]. *)
Definition occurrence (fl : flags) (r : regex) (prev : option ascii)
    (s pre t suf : list ascii) : Prop :=
  s = pre ++ t ++ suf ∧ matches fl r (lastp prev pre) t suf.

(** ** Texts *)

(** The 256 characters. *)
Definition all_ascii : list ascii := ascii_of_nat <$> seq 0 256.

(** [t] is the keyword [k] up to the case of letters. *)
Definition ci_eq (k : string) (t : list ascii) : Prop :=
  tolower <$> t = tolower <$> chars k.

(** Characters that only match themselves, whatever the flags. *)
Definition caseless (c : ascii) : Prop := ∀ x, tolower x = tolower c → x = c.

(** A run of blanks. *)
Definition blank_run (w : list ascii) : Prop :=
  Forall (λ x, is_space x = true) w.

(** A line comment or a block comment opens at the head of [s]. *)
Definition opens_comment (s : list ascii) : Prop :=
  chars "--" `prefix_of` s ∨ chars "/*" `prefix_of` s.

(** [\b] between the text [before] and the text [after]. *)
Definition boundary (before after : list ascii) : Prop :=
  word_before (lastp None before) ≠ word_after after.

(** ** The bypass detector *)

(** A semicolon after which, blanks skipped, the subject goes on with
    something that does not open a comment. *)
Definition stacked_statement (s : list ascii) : Prop :=
  ∃ pre w (c : ascii) rest,
    s = pre ++ ";"%char :: w ++ c :: rest ∧ blank_run w
    ∧ is_space c = false ∧ ¬ opens_comment (c :: rest).

(** The word COMMIT, later a semicolon, and after it, blanks skipped, a word
    character. *)
Definition commit_then_statement (s : list ascii) : Prop :=
  ∃ pre k mid w (c : ascii) rest,
    s = pre ++ k ++ mid ++ ";"%char :: w ++ c :: rest
    ∧ ci_eq "commit" k
    ∧ boundary pre (k ++ mid ++ ";"%char :: w ++ c :: rest)
    ∧ boundary (pre ++ k) (mid ++ ";"%char :: w ++ c :: rest)
    ∧ blank_run w ∧ is_word c = true.

(** The reading of the claim by its words: what follows the semicolon is
    nothing but blanks and comments (a line comment runs to the end of its
    line, a block comment to its closing mark or the end of the subject). *)
Fixpoint skip_line (s : list ascii) : list ascii :=
  match s with
  | [] => []
  | c :: s' => if bool_decide (c = LF) then s' else skip_line s'
  end.

Fixpoint skip_block (s : list ascii) : list ascii :=
  match s with
  | [] => []
  | c :: s' =>
      match s' with
      | d :: s'' =>
          if bool_decide (c = "*"%char ∧ d = "/"%char) then s''
          else skip_block s'
      | [] => []
      end
  end.

Fixpoint only_trivia (fuel : nat) (s : list ascii) : bool :=
  match fuel with
  | 0 => false
  | S fuel' =>
      match s with
      | [] => true
      | c :: s' =>
          match s' with
          | d :: s'' =>
              if bool_decide (c = "-"%char ∧ d = "-"%char)
              then only_trivia fuel' (skip_line s'')
              else if bool_decide (c = "/"%char ∧ d = "*"%char)
              then only_trivia fuel' (skip_block s'')
              else is_space c && only_trivia fuel' s'
          | [] => is_space c
          end
      end
  end.

Definition trailing_only (rest : list ascii) : Prop :=
  only_trivia (S (length rest)) rest = true.

(** ** The injection scanner *)

(** A pattern of the scanner's list fires on [sql]. *)
Definition fires (sql : string) (e : string * compiled) : Prop :=
  truthy (re_search e.2 sql) = true.

Global Instance fires_dec sql e : Decision (fires sql e).
Proof. unfold fires. apply _. Defined.

(** ** UNION ... SELECT *)

(** The word UNION and, later, the word SELECT. *)
Definition union_then_select (s : list ascii) (mid_ok : list ascii → Prop)
    : Prop :=
  ∃ pre u mid sel post,
    s = pre ++ u ++ mid ++ sel ++ post
    ∧ ci_eq "union" u ∧ ci_eq "select" sel
    ∧ boundary pre (u ++ mid ++ sel ++ post)
    ∧ boundary (pre ++ u) (mid ++ sel ++ post)
    ∧ boundary (pre ++ u ++ mid) (sel ++ post)
    ∧ boundary (pre ++ u ++ mid ++ sel) post
    ∧ mid_ok mid.

(** The text between the two words has no line break. *)
Definition one_line (mid : list ascii) : Prop := LF ∉ mid.

Definition union_select_pattern : string * compiled :=
  ("(?i)\bunion\b.*\bselect\b",
   Compiled IGNORECASE
     (seqs [WordB; lits "union"; WordB; Star AnyChar;
            WordB; lits "select"; WordB])).

Definition union_newline_select : string :=
  String.append "UNION" (String LF "SELECT 1").

(** ** The category matcher *)

(** The labels of the anchored rules that match, in the order of the
    function body. *)
Definition category_labels (T : tables) (sql : string) : list string :=
  (if truthy (re_search (DDL_REGEX T) sql) then ["DDL"] else [])
  ++ (if truthy (re_search (PERMISSION_REGEX T) sql) then ["PERMISSION"] else [])
  ++ (if truthy (re_search (SYSTEM_REGEX T) sql) then ["SYSTEM"] else [])
  ++ (if truthy (re_search (TRANSACTION_CONTROL_REGEX T) sql)
      then ["TRANSACTION_CONTROL"] else []).

Definition keyword_labels (keyword_matches : list string) : list string :=
  match keyword_matches with
  | [] => []
  | _ :: _ => sorted_upper_set keyword_matches
  end.

(** After leading blanks, the word FLUSH, at least one blank, and then a
    word character. *)
Definition flush_statement (s : list ascii) : Prop :=
  ∃ lead f w (c : ascii) rest,
    s = lead ++ f ++ w ++ c :: rest
    ∧ blank_run lead ∧ ci_eq "FLUSH" f ∧ blank_run w ∧ w ≠ []
    ∧ is_word c = true.

(** ** The keyword pattern *)

Definition lower_chars (k : string) : list ascii := tolower <$> chars k.

(** One text is the beginning of the other. *)
Definition comparable (a b : list ascii) : Prop :=
  a `prefix_of` b ∨ b `prefix_of` a.

(** Keywords [k] and [k'] cannot both match with [k'] starting [j]
    characters into [k]: at 0 unless they are the same keyword, and further
    in because no word boundary is there or the letters differ. *)
Definition apart_at (k k' : string) (j : nat) : bool :=
  match j with
  | 0 => bool_decide (k = k')
         || negb (bool_decide (comparable (lower_chars k) (lower_chars k')))
  | S _ => word_before (lastp None (take j (chars k)))
           || negb (bool_decide (comparable (drop j (lower_chars k))
                                            (lower_chars k')))
  end.

(** A keyword begins with a word character and is in capitals. *)
Definition keyword_shape (k : string) : bool :=
  word_after (chars k)
  && forallb (λ c, bool_decide (upper_char c = c)) (chars k).

Definition keywords_apart : bool :=
  forallb (λ k, keyword_shape k
                && forallb (λ k', forallb (apart_at k k')
                                    (seq 0 (length (chars k))))
                     source_order)
    source_order.

(** The keyword [k] stands in [s] as a whole word, in any case of
    letters. *)
Definition whole_word_occurrence (k : string) (s : list ascii) : Prop :=
  ∃ pre t suf, s = pre ++ t ++ suf ∧ ci_eq k t
               ∧ boundary pre (t ++ suf) ∧ boundary (pre ++ t) suf.

(** ** Letter case and leading blanks *)

(** Two texts that differ in the case of letters only. *)
Definition same_letters (a b : list ascii) : Prop :=
  tolower <$> a = tolower <$> b.

(** [caseless], decided by trying every character. *)
Definition caseless_b (c : ascii) : bool :=
  forallb (λ x, implb (bool_decide (tolower x = tolower c))
                      (bool_decide (x = c))) all_ascii.

Definition class_blind (k : cclass) : bool :=
  match k with
  | NotChar c => caseless_b c
  | _ => true
  end.

(** A pattern that cannot tell the case of letters: its letters are matched
    under IGNORECASE, and every other character it names has no case. *)
Fixpoint case_blind (fl : flags) (r : regex) : bool :=
  match r with
  | Lit c => ignorecase fl || caseless_b c
  | Cls k => class_blind k
  | Rep _ _ k => class_blind k
  | Seq r1 r2 => case_blind fl r1 && case_blind fl r2
  | Alt r1 r2 => case_blind fl r1 && case_blind fl r2
  | Ahead r' => case_blind fl r'
  | NotAhead r' => case_blind fl r'
  | Eps | Bol | Eol | WordB => true
  end.

(** A pattern that does not look at what comes before it. *)
Fixpoint prev_free (r : regex) : bool :=
  match r with
  | Bol | WordB => false
  | Seq r1 r2 => prev_free r1 && prev_free r2
  | Alt r1 r2 => prev_free r1 && prev_free r2
  | Ahead r' => prev_free r'
  | NotAhead r' => prev_free r'
  | Eps | Lit _ | Cls _ | Rep _ _ _ | Eol => true
  end.

Definition class_nonblank (k : cclass) : bool :=
  match k with
  | NonSpace | Digit | Word => true
  | Space | AnyChar | NotChar _ => false
  end.

(** A pattern whose every match begins with a character that is not
    blank. *)
Fixpoint starts_nonblank (r : regex) : bool :=
  match r with
  | Lit c => negb (is_space c)
  | Cls k => class_nonblank k
  | Seq r1 _ => starts_nonblank r1
  | Alt r1 r2 => starts_nonblank r1 && starts_nonblank r2
  | Rep _ n k => (0 <? n) && class_nonblank k
  | Eps | Bol | Eol | WordB | Ahead _ | NotAhead _ => false
  end.


(** * Properties *)

Arguments lits : simpl never.

(** ** The engine computes what the patterns match *)

Lemma lastp_app prev t1 t2 : lastp prev (t1 ++ t2) = lastp (lastp prev t1) t2.
Proof. revert prev. induction t1 as [|c t1 IH]; intros prev; simpl; auto. Qed.

Lemma rep_spec g test n prev s p' s' :
  (p', s') ∈ rep g test n prev s ↔
  ∃ t, s = t ++ s' ∧ p' = lastp prev t ∧ n ≤ length t
       ∧ Forall (λ x, test x = true) t.
Proof.
  revert n prev. induction s as [|c s IH]; intros n prev.
  - simpl. destruct n as [|n].
    + rewrite list_elem_of_singleton. split.
      * intros [= -> ->]. exists []. repeat split; auto.
      * intros (t & Hs & -> & _ & _). symmetry in Hs.
        apply app_eq_nil in Hs as [-> ->]. reflexivity.
    + split; [by intros ?%elem_of_nil|].
      intros (t & Hs & _ & Hn & _). symmetry in Hs.
      apply app_eq_nil in Hs as [-> ->]. simpl in Hn. lia.
  - assert (Hstop : (p', s') ∈ match n with 0 => [(prev, c :: s)] | S _ => [] end
              ↔ n = 0 ∧ p' = prev ∧ s' = c :: s).
    { destruct n; [rewrite list_elem_of_singleton|rewrite elem_of_nil];
        naive_solver. }
    assert (Hmore : test c = true →
              ((p', s') ∈ rep g test (pred n) (Some c) s ↔
               ∃ t, c :: s = t ++ s' ∧ p' = lastp prev t ∧ n ≤ length t
                    ∧ Forall (λ x, test x = true) t ∧ t ≠ [])).
    { intros Hc. rewrite IH. split.
      - intros (t & -> & -> & Hn & Ht). exists (c :: t). simpl.
        split_and!; [done|done|lia|by constructor|done].
      - intros (t & Hs & -> & Hn & Ht & Hne). destruct t as [|x t]; [done|].
        simpl in Hs. injection Hs as <- ->. exists t. simpl in *.
        apply Forall_cons in Ht as [_ Ht]. split_and!; [done|done|lia|done]. }
    assert (Hnil : (n = 0 ∧ p' = prev ∧ s' = c :: s) ↔
              ∃ t, c :: s = t ++ s' ∧ p' = lastp prev t ∧ n ≤ length t
                   ∧ Forall (λ x, test x = true) t ∧ t = []).
    { split.
      - intros (-> & -> & ->). exists []. repeat split; auto.
      - intros (t & Hs & -> & Hn & _ & ->). simpl in *. split; [lia|]. auto. }
    simpl. destruct (test c) eqn:Hc.
    + specialize (Hmore eq_refl).
      assert ((p', s') ∈ rep g test (pred n) (Some c) s
                ∨ (p', s') ∈ match n with 0 => [(prev, c :: s)] | S _ => [] end
              ↔ ∃ t, c :: s = t ++ s' ∧ p' = lastp prev t ∧ n ≤ length t
                     ∧ Forall (λ x, test x = true) t) as Hboth.
      { rewrite Hmore, Hstop, Hnil. split.
        - intros [(t & ? & ? & ? & ? & _)|(t & ? & ? & ? & ? & _)]; eauto.
        - intros (t & ? & ? & ? & ?). destruct (decide (t = [])); eauto 10. }
      destruct g; rewrite elem_of_app; [|rewrite (comm (∨))]; exact Hboth.
    + rewrite Hstop, Hnil. split.
      * intros (t & ? & ? & ? & ? & _); eauto.
      * intros (t & Hs & ? & ? & Ht). exists t. split_and!; auto.
        destruct t as [|x t]; [done|]. simpl in Hs. injection Hs as <- _.
        apply Forall_cons in Ht as [Hx _]. congruence.
Qed.

Lemma m_spec fl r : ∀ prev s p' s',
  (p', s') ∈ m fl r prev s ↔
  ∃ t, s = t ++ s' ∧ p' = lastp prev t ∧ matches fl r prev t s'.
Proof.
  induction r as [|c|k|r1 IH1 r2 IH2|r1 IH1 r2 IH2|g n k| | | |r IH|r IH];
    intros prev s p' s'; simpl.
  - rewrite list_elem_of_singleton. split.
    + intros [= -> ->]. by exists [].
    + by intros (t & -> & -> & ->).
  - destruct s as [|x s].
    + split; [by intros ?%elem_of_nil|].
      intros (t & Hs & _ & y & -> & _). done.
    + split.
      * destruct (lit_eq fl c x) eqn:E; [|by intros ?%elem_of_nil].
        intros [= -> ->]%list_elem_of_singleton. exists [x]. eauto.
      * intros (t & Hs & -> & y & -> & Hy). injection Hs as -> ->.
        rewrite Hy. by apply list_elem_of_singleton.
  - destruct s as [|x s].
    + split; [by intros ?%elem_of_nil|].
      intros (t & Hs & _ & y & -> & _). done.
    + split.
      * destruct (in_class fl k x) eqn:E; [|by intros ?%elem_of_nil].
        intros [= -> ->]%list_elem_of_singleton. exists [x]. eauto.
      * intros (t & Hs & -> & y & -> & Hy). injection Hs as -> ->.
        rewrite Hy. by apply list_elem_of_singleton.
  - rewrite list_elem_of_bind. split.
    + intros ([p1 s1] & H2 & H1). simpl in H2.
      apply IH1 in H1 as (t1 & -> & -> & H1).
      apply IH2 in H2 as (t2 & -> & -> & H2).
      exists (t1 ++ t2). rewrite <-(assoc_L (++)), lastp_app. eauto 10.
    + intros (t & -> & -> & t1 & t2 & -> & H1 & H2).
      exists (lastp prev t1, t2 ++ s'). simpl. split.
      * apply IH2. exists t2. by rewrite lastp_app.
      * apply IH1. exists t1. by rewrite <-(assoc_L (++)).
  - rewrite elem_of_app, IH1, IH2. naive_solver.
  - apply rep_spec.
  - destruct prev; [rewrite elem_of_nil|rewrite list_elem_of_singleton].
    + split; [done|]. by intros (t & _ & _ & _ & ?).
    + split.
      * intros [= -> ->]. by exists [].
      * by intros (t & -> & -> & -> & _).
  - split.
    + destruct s as [|c [|??]]; [| |by intros ?%elem_of_nil].
      * intros [= -> ->]%list_elem_of_singleton. exists []. eauto.
      * case_bool_decide; [|by intros ?%elem_of_nil].
        intros [= -> ->]%list_elem_of_singleton. exists []. subst. eauto.
    + intros (t & -> & -> & -> & [->| ->]); simpl;
        by apply list_elem_of_singleton.
  - split.
    + destruct (xorb _ _) eqn:E; [|by intros ?%elem_of_nil].
      intros [= -> ->]%list_elem_of_singleton. exists []. repeat split; auto.
      intros Heq. rewrite Heq, xorb_nilpotent in E. done.
    + intros (t & -> & -> & -> & Hne). simpl.
      destruct (word_before prev), (word_after s'); simpl; try done;
        by apply list_elem_of_singleton.
  - split.
    + destruct (m fl r prev s) as [|[p1 s1] l] eqn:E; [by intros ?%elem_of_nil|].
      intros [= -> ->]%list_elem_of_singleton.
      assert ((p1, s1) ∈ m fl r prev s) as H by (rewrite E; left).
      apply IH in H as (t & -> & -> & H). exists []. eauto 10.
    + intros (t & -> & -> & -> & t' & s'' & -> & H). simpl.
      assert ((lastp prev t', s'') ∈ m fl r prev (t' ++ s'')) as Hin.
      { apply IH. eauto. }
      destruct (m fl r prev (t' ++ s'')); [by apply elem_of_nil in Hin|].
      by apply list_elem_of_singleton.
  - split.
    + destruct (m fl r prev s) as [|[p1 s1] l] eqn:E; [|by intros ?%elem_of_nil].
      intros [= -> ->]%list_elem_of_singleton. exists []. repeat split; auto.
      intros (t' & s'' & -> & H).
      assert ((lastp prev t', s'') ∈ m fl r prev (t' ++ s'')) as Hin.
      { apply IH. eauto. }
      rewrite E in Hin. by apply elem_of_nil in Hin.
    + intros (t & -> & -> & -> & Hno). simpl.
      destruct (m fl r prev s') as [|[p1 s1] l] eqn:E;
        [by apply list_elem_of_singleton|].
      exfalso. apply Hno.
      assert ((p1, s1) ∈ m fl r prev s') as H by (rewrite E; left).
      apply IH in H as (t & -> & -> & H). eauto.
Qed.

(** ** Facts about all 256 characters, by enumeration *)

Lemma ascii_all (P : ascii → bool) :
  forallb P all_ascii = true → ∀ c, P c = true.
Proof.
  intros H c. rewrite forallb_forall in H. apply H.
  apply list_elem_of_In, list_elem_of_fmap. exists (nat_of_ascii c). split.
  - by rewrite ascii_nat_embedding.
  - apply elem_of_seq. pose proof (nat_ascii_bounded c). lia.
Qed.

Lemma word_not_space c : is_word c = true → is_space c = false.
Proof.
  intros H. apply negb_true_iff. revert H. apply implb_true_iff.
  revert c. by apply ascii_all.
Qed.

Lemma tolower_word c : is_word (tolower c) = is_word c.
Proof.
  apply (bool_decide_eq_true_1 _). revert c. by apply ascii_all.
Qed.

Lemma upper_tolower c : upper_char (tolower c) = upper_char c.
Proof.
  apply (bool_decide_eq_true_1 _). revert c. by apply ascii_all.
Qed.

(** ** Searching *)

Lemma m_suffix fl r prev s st :
  st ∈ m fl r prev s → ∃ t, s = t ++ st.2 ∧ st.1 = lastp prev t.
Proof.
  destruct st as [p' s']. intros (t & ? & ? & _)%m_spec. eauto.
Qed.

Lemma first_match_head fl r prev s :
  first_match fl r false prev s = head (m fl r prev s).
Proof.
  unfold first_match. f_equal.
  induction (m fl r prev s) as [|st l IH]; [done|].
  rewrite filter_cons_True by auto. f_equal. exact IH.
Qed.

Lemma first_match_elem fl r adv prev s st :
  first_match fl r adv prev s = Some st →
  st ∈ m fl r prev s ∧ (adv = true → length st.2 < length s).
Proof.
  unfold first_match. intros H%head_Some_elem_of.
  apply list_elem_of_filter in H as [[?|?] ?]; split; auto; congruence.
Qed.

Lemma never_empty_shorter fl r prev s st :
  never_empty fl r → st ∈ m fl r prev s → length st.2 < length s.
Proof.
  intros Hne Hin. destruct st as [p' s'].
  apply m_spec in Hin as (t & -> & _ & Ht). apply Hne in Ht.
  rewrite length_app. destruct t; [done|]. simpl. lia.
Qed.

Lemma first_match_never_empty fl r adv prev s :
  never_empty fl r → first_match fl r adv prev s = head (m fl r prev s).
Proof.
  intros Hne. unfold first_match. f_equal.
  assert (Forall (λ st, st ∈ m fl r prev s) (m fl r prev s)) as Hall
    by by apply Forall_forall.
  revert Hall. generalize (m fl r prev s) at 2 3 4 as l.
  induction l as [|st l IH]; [done|]. intros [Hst Hl]%Forall_cons.
  rewrite filter_cons_True by eauto using never_empty_shorter.
  f_equal. by apply IH.
Qed.

Lemma scan_never_empty fl r adv prev s :
  never_empty fl r → scan fl r adv prev s = scan fl r false prev s.
Proof.
  intros Hne. destruct s; simpl;
    by rewrite !(first_match_never_empty _ _ _ _ _ Hne).
Qed.

Lemma scan_unfold fl r adv prev s :
  scan fl r adv prev s =
  match first_match fl r adv prev s with
  | Some st => Some (take (length s - length st.2) s, st)
  | None =>
      match s with
      | [] => None
      | c :: s' => scan fl r false (Some c) s'
      end
  end.
Proof. by destruct s. Qed.

Lemma take_matched (t s2 : list ascii) :
  take (length (t ++ s2) - length s2) (t ++ s2) = t.
Proof.
  rewrite length_app.
  replace (length t + length s2 - length s2) with (length t) by lia.
  by rewrite take_app_length.
Qed.

(** What [scan] returns is a match, and the first position has no shorter
    way out when the engine must advance. *)
Lemma scan_Some fl r adv prev s t st :
  scan fl r adv prev s = Some (t, st) →
  ∃ pre, s = pre ++ t ++ st.2
         ∧ st ∈ m fl r (lastp prev pre) (t ++ st.2)
         ∧ (adv = true → pre = [] → t ≠ []).
Proof.
  revert adv prev t st. induction s as [|c s IH]; intros adv prev t0 st;
    rewrite scan_unfold;
    (destruct (first_match fl r adv prev _) as [st'|] eqn:E; [|clear E]).
  - intros [= <- <-]. apply first_match_elem in E as [Hin Hlen].
    exists []. apply m_suffix in Hin as Hsuf. destruct Hsuf as (t & Ht & _).
    destruct (app_eq_nil _ _ (eq_sym Ht)) as [-> Hst]. rewrite Hst in *.
    split_and!; [done|done|]. intros Hadv. specialize (Hlen Hadv).
    simpl in Hlen. lia.
  - done.
  - intros [= <- <-]. apply first_match_elem in E as [Hin Hlen].
    exists []. apply m_suffix in Hin as Hsuf. destruct Hsuf as (t & Ht & _).
    change (S (length s)) with (length (c :: s)).
    rewrite Ht in Hin, Hlen |- *. rewrite take_matched. simpl.
    split_and!; [done|done|]. intros Hadv _ ->. specialize (Hlen Hadv).
    simpl in Hlen. lia.
  - intros H. apply IH in H as (pre & -> & Hin & _).
    exists (c :: pre). simpl. split_and!; [done|done|done].
Qed.

Lemma scan_None fl r prev s :
  scan fl r false prev s = None ↔
  ∀ pre suf, s = pre ++ suf → m fl r (lastp prev pre) suf = [].
Proof.
  revert prev. induction s as [|c s IH]; intros prev;
    rewrite scan_unfold, first_match_head.
  - destruct (m fl r prev []) as [|st l] eqn:E; simpl.
    + split; [|done]. intros _ pre suf Hs. symmetry in Hs.
      by apply app_eq_nil in Hs as [-> ->].
    + split; [done|]. intros H. specialize (H [] [] eq_refl). simpl in H.
      congruence.
  - destruct (m fl r prev (c :: s)) as [|st l] eqn:E; simpl.
    + rewrite IH. split.
      * intros H [|x pre] suf Hs; simpl in *; [by subst|].
        injection Hs as -> ->. by apply H.
      * intros H pre suf ->. by apply (H (c :: pre)).
    + split; [done|]. intros H. specialize (H [] (c :: s) eq_refl).
      simpl in H. congruence.
Qed.

(** The leftmost match: no position before it matches. *)
Lemma scan_first fl r prev s t st :
  scan fl r false prev s = Some (t, st) →
  ∃ pre, s = pre ++ t ++ st.2
         ∧ head (m fl r (lastp prev pre) (t ++ st.2)) = Some st
         ∧ ∀ pre1 pre2, pre = pre1 ++ pre2 → pre2 ≠ [] →
             m fl r (lastp prev pre1) (pre2 ++ t ++ st.2) = [].
Proof.
  revert prev t st. induction s as [|c s IH]; intros prev t0 st;
    rewrite scan_unfold, first_match_head;
    (destruct (m fl r prev _) as [|st' l] eqn:E; simpl).
  - done.
  - intros [= <- <-].
    assert (st' ∈ m fl r prev []) as Hin by (rewrite E; left).
    apply m_suffix in Hin as (t & Ht & _).
    destruct (app_eq_nil _ _ (eq_sym Ht)) as [-> Hst]. rewrite Hst in *.
    exists []. simpl. rewrite E. split_and!; [done|done|].
    intros pre1 pre2 Hp. symmetry in Hp. by apply app_eq_nil in Hp as [-> ->].
  - intros H. apply IH in H as (pre & -> & Hhd & Hno).
    exists (c :: pre). simpl. split_and!; [done|done|].
    intros [|x pre1] pre2 Hp Hne; simpl in *.
    + subst pre2. simpl. exact E.
    + injection Hp as -> ->. by apply Hno.
  - intros [= <- <-].
    assert (st' ∈ m fl r prev (c :: s)) as Hin by (rewrite E; left).
    apply m_suffix in Hin as (t & Ht & _).
    change (S (length s)) with (length (c :: s)).
    rewrite Ht in E |- *. rewrite take_matched.
    exists []. simpl. rewrite E. split_and!; [done|done|].
    intros pre1 pre2 Hp. symmetry in Hp. by apply app_eq_nil in Hp as [-> ->].
Qed.

(** [search] succeeds exactly when the pattern matches somewhere. *)
Lemma re_search_true p sql :
  truthy (re_search p sql) = true ↔
  ∃ pre t suf, chars sql = pre ++ t ++ suf
               ∧ matches (c_flags p) (c_re p) (lastp None pre) t suf.
Proof.
  unfold re_search. split.
  - destruct (scan _ _ _ _ _) as [[t st]|] eqn:E; [|done]. intros _.
    apply scan_Some in E as (pre & Hs & Hin & _). destruct st as [p' s'].
    apply m_spec in Hin as (t' & Ht & _ & Hm). simpl in *.
    apply app_inv_tail in Ht as <-. eauto.
  - intros (pre & t & suf & Hs & Hm).
    destruct (scan _ _ _ _ _) as [[t' st]|] eqn:E; [done|]. exfalso.
    assert ((lastp (lastp None pre) t, suf)
              ∈ m (c_flags p) (c_re p) (lastp None pre) (t ++ suf)) as Hin.
    { apply m_spec. eauto. }
    rewrite (proj1 (scan_None _ _ _ _) E pre (t ++ suf) Hs) in Hin.
    by apply elem_of_nil in Hin.
Qed.

Lemma re_search_false p sql :
  truthy (re_search p sql) = false ↔
  ∀ pre t suf, chars sql = pre ++ t ++ suf →
               ¬ matches (c_flags p) (c_re p) (lastp None pre) t suf.
Proof.
  rewrite <-not_true_iff_false, re_search_true. naive_solver.
Qed.

(** ** [findall] finishes within its bound *)

Lemma findall_loop_total fl r fuel (adv : bool) prev s :
  2 * length s + (if adv then 1 else 2) ≤ fuel →
  ∃ found, findall_loop fuel fl r adv prev s = Some found.
Proof.
  revert adv prev s. induction fuel as [|fuel IH]; intros adv prev s Hfuel.
  { destruct adv; lia. }
  simpl. destruct (scan fl r adv prev s) as [[t st]|] eqn:E; [|eauto].
  apply scan_Some in E as (pre & Hs & _ & Hadv).
  destruct (IH (bool_decide (t = [])) st.1 st.2) as [found ->]; [|eauto].
  subst s. rewrite !length_app in Hfuel. case_bool_decide as Ht.
  - subst t. simpl in *. destruct adv; [|lia].
    destruct pre; [by destruct Hadv|]. simpl in *. lia.
  - destruct t; [done|]. simpl in *. destruct adv; lia.
Qed.

Lemma findall_total p sql : ∃ found, findall p sql = Some found.
Proof. apply findall_loop_total. lia. Qed.

(** The first round of [findall] is a [search]. *)
Lemma findall_nonempty p sql found :
  findall p sql = Some found →
  (0 <? length found) = truthy (re_search p sql).
Proof.
  unfold findall, re_search.
  replace (2 * length (chars sql) + 2) with (S (2 * length (chars sql) + 1))
    by lia.
  simpl. destruct (scan _ _ _ _ _) as [[t st]|]; [|by intros [= <-]].
  destruct (findall_loop _ _ _ _ _ _); [|done]. by intros [= <-].
Qed.

(** ** Reading the patterns *)

Lemma matches_seqs_cons fl r rs prev t s :
  matches fl (seqs (r :: rs)) prev t s ↔
  ∃ t1 t2, t = t1 ++ t2 ∧ matches fl r prev t1 (t2 ++ s)
           ∧ matches fl (seqs rs) (lastp prev t1) t2 s.
Proof.
  destruct rs as [|r' rs]; [|done]. simpl. split.
  - intros H. exists t, []. by rewrite (right_id_L [] (++)).
  - intros (t1 & t2 & -> & H & ->). by rewrite (right_id_L [] (++)).
Qed.

Lemma matches_alts fl rs prev t s :
  matches fl (alts rs) prev t s ↔ ∃ r, r ∈ rs ∧ matches fl r prev t s.
Proof.
  induction rs as [|r rs IH].
  - simpl. split.
    + intros [_ H]. destruct H. by exists [], s.
    + by intros (r & ?%elem_of_nil & _).
  - destruct rs as [|r' rs].
    + simpl. split.
      * intros H. exists r. split; [left|done].
      * by intros (r' & ->%list_elem_of_singleton & H).
    + change (matches fl (alts (r :: r' :: rs)) prev t s)
        with (matches fl r prev t s ∨ matches fl (alts (r' :: rs)) prev t s).
      rewrite IH. split.
      * intros [H|(r0 & Hin & H)].
        -- exists r. split; [left|done].
        -- exists r0. split; [by right|done].
      * intros (r0 & [->|Hin]%elem_of_cons & H); eauto.
Qed.

Lemma matches_seqs_lit fl cs prev t s :
  matches fl (seqs (Lit <$> cs)) prev t s ↔
  Forall2 (λ c x, lit_eq fl c x = true) cs t.
Proof.
  revert prev t. induction cs as [|c cs IH]; intros prev t.
  - simpl. split; [by intros ->|by intros ->%Forall2_nil_inv_l].
  - rewrite fmap_cons, matches_seqs_cons. split.
    + intros (t1 & t2 & -> & (x & -> & Hx) & H2). apply IH in H2.
      by constructor.
    + intros (x & t2 & Hx & H2 & ->)%Forall2_cons_inv_l.
      exists [x], t2. split_and!; [done|by exists x|by apply IH].
Qed.

Lemma Forall2_tolower (cs t : list ascii) :
  Forall2 (λ c x, tolower x = tolower c) cs t ↔ tolower <$> t = tolower <$> cs.
Proof.
  revert t. induction cs as [|c cs IH]; intros [|x t]; simpl.
  - split; by constructor.
  - split; [by intros ?%Forall2_nil_inv_l|done].
  - split; [by intros ?%Forall2_nil_inv_r|done].
  - rewrite Forall2_cons. split.
    + intros [-> H]. f_equal. by apply IH.
    + intros [= -> H]. split; [done|by apply IH].
Qed.

Lemma matches_lits_ci fl k prev t s :
  ignorecase fl = true → matches fl (lits k) prev t s ↔ ci_eq k t.
Proof.
  intros Hfl. unfold lits, ci_eq. rewrite matches_seqs_lit.
  etrans; [|apply Forall2_tolower].
  split; intros H; (eapply Forall2_impl; [exact H|]); intros c x;
    unfold lit_eq; rewrite Hfl; by rewrite bool_decide_eq_true.
Qed.

Lemma caseless_by_enumeration c :
  forallb (λ x, implb (bool_decide (tolower x = tolower c))
                      (bool_decide (x = c))) all_ascii = true →
  caseless c.
Proof.
  intros H x Hx. pose proof (ascii_all _ H x) as Hc. simpl in Hc.
  rewrite bool_decide_eq_true_2 in Hc by done.
  by apply bool_decide_eq_true in Hc.
Qed.

Lemma lit_eq_caseless fl c x : caseless c → lit_eq fl c x = true ↔ x = c.
Proof.
  intros Hc. unfold lit_eq. destruct (ignorecase fl);
    rewrite bool_decide_eq_true; [|done].
  split; [apply Hc|by intros ->].
Qed.

Lemma caseless_semicolon : caseless ";".
Proof. by apply caseless_by_enumeration. Qed.
Lemma caseless_dash : caseless "-".
Proof. by apply caseless_by_enumeration. Qed.
Lemma caseless_slash : caseless "/".
Proof. by apply caseless_by_enumeration. Qed.
Lemma caseless_star : caseless "*".
Proof. by apply caseless_by_enumeration. Qed.

Lemma matches_lits_exact fl k prev t s :
  Forall caseless (chars k) → matches fl (lits k) prev t s ↔ t = chars k.
Proof.
  intros Hk. unfold lits. rewrite matches_seqs_lit.
  revert t. induction Hk as [|c cs Hc Hcs IH]; intros t.
  - split; [by intros ->%Forall2_nil_inv_l|by intros ->].
  - split.
    + intros (x & t2 & Hx & H2 & ->)%Forall2_cons_inv_l.
      apply lit_eq_caseless in Hx as ->; [|done]. f_equal. by apply IH.
    + intros ->. constructor; [by apply lit_eq_caseless|by apply IH].
Qed.

Lemma blank_run_head w (c : ascii) rest w' rest' :
  blank_run w → is_space c = false → c :: rest = w ++ w' ++ rest' →
  w = [] ∧ c :: rest = w' ++ rest'.
Proof.
  intros Hw Hc Heq. destruct w as [|x w]; [done|].
  simpl in Heq. injection Heq as <- _. apply Forall_cons in Hw as [? _].
  congruence.
Qed.

(** The look-ahead [not_trailing] before a character that is not blank. *)
Lemma matches_not_trailing fl prev t (c : ascii) rest :
  is_space c = false →
  matches fl not_trailing prev t (c :: rest) ↔
  t = [] ∧ ¬ opens_comment (c :: rest).
Proof.
  intros Hc. unfold not_trailing, Group.
  change (matches fl (NotAhead ?r) prev t ?s)
    with (t = [] ∧ ¬ ∃ t' s', s = t' ++ s' ∧ matches fl r prev t' s').
  apply and_iff_compat_l, not_iff_compat. split.
  - intros (t' & s' & Hs & (r & Hr & Hm)%matches_alts).
    repeat (apply elem_of_cons in Hr as [->|Hr]); [| | |by apply elem_of_nil in Hr].
    + simpl in Hm. destruct Hm as [-> [->| ->]]; [done|].
      simpl in Hs. injection Hs as ->. done.
    + apply matches_seqs_cons in Hm as (w & d & -> & [_ Hw] & Hd).
      rewrite matches_seqs_cons in Hd.
      destruct Hd as (d1 & d2 & -> & Hd & ->).
      apply matches_lits_exact in Hd as ->;
        [|by repeat constructor; auto using caseless_dash].
      rewrite (right_id_L [] (++)), <-(assoc_L (++)) in Hs.
      eapply blank_run_head in Hs as [_ ->]; [|done..].
      left. by eexists.
    + apply matches_seqs_cons in Hm as (w & d & -> & [_ Hw] & Hd).
      rewrite matches_seqs_cons in Hd.
      destruct Hd as (d1 & d2 & -> & Hd & ->).
      apply matches_lits_exact in Hd as ->;
        [|by repeat constructor; auto using caseless_slash, caseless_star].
      rewrite (right_id_L [] (++)), <-(assoc_L (++)) in Hs.
      eapply blank_run_head in Hs as [_ ->]; [|done..].
      right. by eexists.
  - intros [[s' Hs]|[s' Hs]].
    + exists (chars "--"), s'. split; [done|]. apply matches_alts.
      exists (seqs [ws0; lits "--"]). split; [set_solver|].
      apply matches_seqs_cons. exists [], (chars "--").
      split_and!; [done|by split; [simpl; lia|constructor]|].
      apply matches_seqs_cons. exists (chars "--"), [].
      split_and!; [done| |done]. apply matches_lits_exact; [|done].
      by repeat constructor; auto using caseless_dash.
    + exists (chars "/*"), s'. split; [done|]. apply matches_alts.
      exists (seqs [ws0; lits "/*"]). split; [set_solver|].
      apply matches_seqs_cons. exists [], (chars "/*").
      split_and!; [done|by split; [simpl; lia|constructor]|].
      apply matches_seqs_cons. exists (chars "/*"), [].
      split_and!; [done| |done]. apply matches_lits_exact; [|done].
      by repeat constructor; auto using caseless_slash, caseless_star.
Qed.

Lemma matches_stacked fl prev t s :
  matches fl stacked_re prev t s ↔
  ∃ w (c : ascii) rest, t = ";"%char :: w ∧ blank_run w ∧ s = c :: rest
                        ∧ is_space c = false ∧ ¬ opens_comment s.
Proof.
  unfold stacked_re. split.
  - intros (t1 & t2 & -> & (x & -> & Hx) & H)%matches_seqs_cons.
    apply lit_eq_caseless in Hx as ->; [|apply caseless_semicolon].
    apply matches_seqs_cons in H as (w & t3 & -> & [_ Hw] & H).
    apply matches_seqs_cons in H as (t4 & t5 & -> & Hnt & H).
    simpl in H. destruct H as (-> & t' & s' & -> & c & -> & Hc).
    apply negb_true_iff in Hc.
    apply matches_not_trailing in Hnt as [-> Hnt]; [|done].
    exists w, c, s'. rewrite !(right_id_L [] (++)). by split_and!.
  - intros (w & c & rest & -> & Hw & -> & Hc & Hno).
    apply matches_seqs_cons. exists [";"%char], w.
    split_and!; [done|by exists ";"%char; rewrite lit_eq_caseless
                       by apply caseless_semicolon|].
    apply matches_seqs_cons. exists w, [].
    split_and!; [by rewrite (right_id_L [] (++))|by split; [simpl; lia|]|].
    apply matches_seqs_cons. exists [], [].
    split_and!; [done|by apply matches_not_trailing|].
    simpl. split; [done|]. exists [c], rest. split; [done|].
    exists c. by rewrite Hc.
Qed.

Lemma search_stacked fl sql :
  truthy (re_search (Compiled fl stacked_re) sql) = true ↔
  stacked_statement (chars sql).
Proof.
  rewrite re_search_true. cbn [c_re c_flags]. split.
  - intros (pre & t & suf & Hs & H).
    apply matches_stacked in H as (w & c & rest & -> & Hw & -> & Hc & Hno).
    exists pre, w, c, rest. by split_and!.
  - intros (pre & w & c & rest & Hs & Hw & Hc & Hno).
    exists pre, (";"%char :: w), (c :: rest). split; [done|].
    apply matches_stacked. exists w, c, rest. by split_and!.
Qed.

Lemma word_no_comment (c : ascii) rest :
  is_word c = true → ¬ opens_comment (c :: rest).
Proof. intros Hc [[? [= -> _]]|[? [= -> _]]]; done. Qed.

Lemma search_commit sql :
  truthy (re_search commit_bypass_pattern sql) = true ↔
  commit_then_statement (chars sql).
Proof.
  rewrite re_search_true. unfold commit_bypass_pattern, c_re, c_flags. split.
  - intros (pre & t & suf & Hs & H).
    apply matches_seqs_cons in H as (? & t1 & -> & [-> Hb1] & H).
    apply matches_seqs_cons in H as (k & t2 & -> & Hk & H).
    apply matches_lits_ci in Hk; [|done].
    apply matches_seqs_cons in H as (? & t3 & -> & [-> Hb2] & H).
    apply matches_seqs_cons in H as (mid & t4 & -> & _ & H).
    apply matches_seqs_cons in H as (? & t5 & -> & (x & -> & Hx) & H).
    apply lit_eq_caseless in Hx as ->; [|apply caseless_semicolon].
    apply matches_seqs_cons in H as (w & t6 & -> & [_ Hw] & H).
    apply matches_seqs_cons in H as (nt & wd & -> & [-> _] & H).
    simpl in H. destruct H as [Hlen Hwd].
    destruct wd as [|c wd]; [simpl in Hlen; lia|].
    apply Forall_cons in Hwd as [Hc _].
    simpl in Hb1, Hb2, Hs. rewrite <-lastp_app in Hb2.
    exists pre, k, mid, w, c, (wd ++ suf).
    revert Hs Hb1 Hb2.
    rewrite <-?(assoc_L (++)). simpl. rewrite <-?(assoc_L (++)).
    intros Hs Hb1 Hb2. by split_and!.
  - intros (pre & k & mid & w & c & rest & Hs & Hk & Hb1 & Hb2 & Hw & Hc).
    exists pre, (k ++ mid ++ ";"%char :: w ++ [c]), rest. split.
    { rewrite Hs, <-?(assoc_L (++)). simpl. by rewrite <-?(assoc_L (++)). }
    apply matches_seqs_cons. exists [], (k ++ mid ++ ";"%char :: w ++ [c]).
    split_and!; [done| |].
    { split; [done|]. revert Hb1. unfold boundary.
      rewrite <-?(assoc_L (++)). simpl. by rewrite <-?(assoc_L (++)). }
    apply matches_seqs_cons. exists k, (mid ++ ";"%char :: w ++ [c]).
    split_and!; [done|by apply matches_lits_ci|].
    apply matches_seqs_cons. exists [], (mid ++ ";"%char :: w ++ [c]).
    split_and!; [done| |].
    { split; [done|]. revert Hb2. unfold boundary. simpl.
      rewrite lastp_app, <-?(assoc_L (++)). simpl.
      by rewrite <-?(assoc_L (++)). }
    apply matches_seqs_cons. exists mid, (";"%char :: w ++ [c]).
    split_and!; [done| |].
    { split; [simpl; lia|]. by apply Forall_forall. }
    apply matches_seqs_cons. exists [";"%char], (w ++ [c]).
    split_and!; [done| |].
    { exists ";"%char. by rewrite lit_eq_caseless by apply caseless_semicolon. }
    apply matches_seqs_cons. exists w, [c].
    split_and!; [done|by split; [simpl; lia|]|].
    apply matches_seqs_cons. exists [], [c].
    split_and!; [done| |].
    { apply matches_not_trailing; [by apply word_not_space|].
      split; [done|]. by apply word_no_comment. }
    simpl. split; [lia|]. by constructor.
Qed.

(** ** The injection scanner *)

Lemma scan_patterns_find patterns sql :
  scan_patterns patterns sql [] =
  match list_find (fires sql) patterns with
  | Some (_, e) => [issue e.1]
  | None => []
  end.
Proof.
  induction patterns as [|[src p] ps IH]; [done|]. simpl.
  unfold fires at 1. simpl. case_decide as Hp.
  - by rewrite Hp.
  - apply not_true_is_false in Hp. rewrite Hp, IH.
    by destruct (list_find (fires sql) ps) as [[??]|].
Qed.

Lemma check_call kw_iter sql :
  call kw_iter (check_sql_injection_risk sql) =
  Some (scan_patterns SUSPICIOUS_PATTERNS_init sql []).
Proof. done. Qed.

Lemma sources_distinct : NoDup (SUSPICIOUS_PATTERNS_init.*1).
Proof. apply (bool_decide_unpack _). by vm_compute. Qed.

Lemma issue_inj : Inj (=) (=) issue.
Proof. intros a b [= H]. by apply (inj _) in H. Qed.

(** C1.  On every input the scanner returns at most one finding: none when
    no pattern of the list of 15 fires, and otherwise exactly the finding of
    the earliest pattern that fires, with type sql, severity high and a
    message that tells the patterns apart. *)
Theorem check_sql_injection_risk_first_match kw_iter sql :
  ∃ result,
    call kw_iter (check_sql_injection_risk sql) = Some result
    ∧ length SUSPICIOUS_PATTERNS_init = 15
    ∧ length result ≤ 1
    ∧ (result = [] ↔
       ∀ i e, SUSPICIOUS_PATTERNS_init !! i = Some e → ¬ fires sql e)
    ∧ ((∃ i e, SUSPICIOUS_PATTERNS_init !! i = Some e ∧ fires sql e) →
       ∃ i e, SUSPICIOUS_PATTERNS_init !! i = Some e ∧ fires sql e
              ∧ (∀ j e', SUSPICIOUS_PATTERNS_init !! j = Some e' → j < i →
                         ¬ fires sql e')
              ∧ result = [issue e.1])
    ∧ (∀ f, f ∈ result → f_type f = "sql" ∧ f_severity f = "high")
    ∧ (∀ i j e e',
         SUSPICIOUS_PATTERNS_init !! i = Some e →
         SUSPICIOUS_PATTERNS_init !! j = Some e' →
         f_message (issue e.1) = f_message (issue e'.1) → i = j).
Proof.
  eexists. split; [apply check_call|]. rewrite scan_patterns_find.
  split; [done|].
  destruct (list_find (fires sql) SUSPICIOUS_PATTERNS_init) as [[i e]|] eqn:E.
  - apply list_find_Some in E as (Hi & He & Hfirst).
    split_and!; [simpl; lia| | | |].
    + split; [done|]. intros H. by destruct (H i e).
    + intros _. exists i, e. by split_and!.
    + by intros f ->%list_elem_of_singleton.
    + intros a b ea eb Ha Hb [= Hm]. apply (inj _) in Hm.
      eapply (NoDup_lookup _ a b ea.1); [apply sources_distinct|..];
        rewrite list_lookup_fmap; [by rewrite Ha|by rewrite Hb, Hm].
  - apply list_find_None in E. rewrite Forall_forall in E.
    split_and!; [simpl; lia| | | |].
    + split; [|done]. intros _ i e Hi. apply E. by eapply list_elem_of_lookup_2.
    + intros (i & e & Hi & He). destruct (E e); [|done].
      by eapply list_elem_of_lookup_2.
    + by intros f ?%elem_of_nil.
    + intros a b ea eb Ha Hb [= Hm]. apply (inj _) in Hm.
      eapply (NoDup_lookup _ a b ea.1); [apply sources_distinct|..];
        rewrite list_lookup_fmap; [by rewrite Ha|by rewrite Hb, Hm].
Qed.

(** C2, as the code has it.  On this input the scanner returns exactly one
    finding, and it is the one of the bare-DROP pattern, the fifth of the
    list, which comes before the stacked-statement pattern, the eighth. *)
Theorem stacked_drop_reports_drop kw_iter :
  ∃ drop stacked,
    SUSPICIOUS_PATTERNS_init !! 4 = Some drop
    ∧ drop.1 = "(?i)\bdrop\b"
    ∧ SUSPICIOUS_PATTERNS_init !! 7 = Some stacked
    ∧ stacked.2 = Compiled NOFLAGS stacked_re
    ∧ fires "SELECT * FROM t; DROP TABLE t;" stacked
    ∧ call kw_iter (check_sql_injection_risk "SELECT * FROM t; DROP TABLE t;")
      = Some [issue drop.1].
Proof. do 2 eexists. split_and!; reflexivity. Qed.

(** C2, as the claim has it, fails: the single finding is not the one of
    the stacked-statement pattern. *)
Lemma stacked_drop_not_stacked_rule :
  ¬ ∃ stacked,
      SUSPICIOUS_PATTERNS_init !! 7 = Some stacked
      ∧ call source_order
          (check_sql_injection_risk "SELECT * FROM t; DROP TABLE t;")
        = Some [issue stacked.1].
Proof. intros (stacked & [= <-] & H). by vm_compute in H. Qed.

(** ** The bypass detector *)

Lemma bypass_call kw_iter sql :
  call kw_iter (detect_transaction_bypass_attempt sql) =
  Some (truthy (re_search commit_bypass_pattern sql)
        || truthy (re_search multiple_statements sql)).
Proof.
  unfold call, detect_transaction_bypass_attempt.
  destruct (truthy (re_search commit_bypass_pattern sql)); [done|].
  unfold bind, bounded, ret.
  destruct (findall_total multiple_statements sql) as [found Hf].
  rewrite Hf. simpl. by rewrite (findall_nonempty _ _ _ Hf).
Qed.

(** A COMMIT followed by a statement is in particular a stacked statement:
    the first condition of the detector never adds to the second. *)
Lemma commit_then_statement_stacked s :
  commit_then_statement s → stacked_statement s.
Proof.
  intros (pre & k & mid & w & c & rest & -> & _ & _ & _ & Hw & Hc).
  exists (pre ++ k ++ mid), w, c, rest.
  split_and!; [by rewrite <-!(assoc_L (++))|done|by apply word_not_space|].
  by apply word_no_comment.
Qed.

(** C3, as the code has it.  The detector answers true exactly when the
    subject has the word COMMIT followed, anywhere later, by a semicolon,
    blanks and a word character, or has a semicolon after which, blanks
    skipped, a further character follows that does not open a line comment
    or a block comment; with the two examples of the specification. *)
Theorem bypass_detector_spec kw_iter sql :
  (∃ b, call kw_iter (detect_transaction_bypass_attempt sql) = Some b
        ∧ (b = true ↔ commit_then_statement (chars sql)
                      ∨ stacked_statement (chars sql)))
  ∧ call kw_iter (detect_transaction_bypass_attempt
                    "BEGIN READ ONLY; SELECT 1; COMMIT; DROP TABLE secrets;")
    = Some true
  ∧ call kw_iter (detect_transaction_bypass_attempt
                    "SELECT * FROM t WHERE name = 'O''Brien'")
    = Some false.
Proof.
  split_and!; [|by vm_compute..].
  eexists. split; [apply bypass_call|].
  unfold multiple_statements.
  by rewrite orb_true_iff, search_commit, search_stacked.
Qed.

(** C3, as the claim has it, fails: a semicolon followed by a comment and
    then by another statement is not followed only by blanks, a comment or
    the end of the subject, and yet the detector answers false, because
    the pattern leaves out every semicolon after which a comment opens. *)
Lemma comment_then_statement_not_flagged :
  ¬ ∀ sql,
      call source_order (detect_transaction_bypass_attempt sql) = Some true ↔
      commit_then_statement (chars sql)
      ∨ ∃ pre rest, chars sql = pre ++ ";"%char :: rest ∧ ¬ trailing_only rest.
Proof.
  intros H.
  destruct (H "SELECT 1; /* c */ DROP TABLE t") as [_ Hflag].
  assert (call source_order
            (detect_transaction_bypass_attempt "SELECT 1; /* c */ DROP TABLE t")
          = Some false) as Hfalse by by vm_compute.
  rewrite Hfalse in Hflag. discriminate Hflag.
  right. exists (chars "SELECT 1"), (chars " /* c */ DROP TABLE t").
  split; [reflexivity|]. unfold trailing_only. by vm_compute.
Qed.

(** C9.  Whenever the eighth pattern of the scanner, the stacked-statement
    pattern, matches somewhere in the subject, the detector answers true. *)
Theorem stacked_rule_implies_bypass kw_iter sql e :
  SUSPICIOUS_PATTERNS (module_init kw_iter) !! 7 = Some e →
  fires sql e →
  call kw_iter (detect_transaction_bypass_attempt sql) = Some true.
Proof.
  intros [= <-] He. rewrite bypass_call. f_equal. apply orb_true_iff. by right.
Qed.

Lemma stacked_rule_implies_bypass_witness :
  SUSPICIOUS_PATTERNS (module_init source_order) !! 7
  = Some (";\s*(?!($|\s*--|\s*/\*))(?=\S)", Compiled NOFLAGS stacked_re)
  ∧ fires "SELECT 1; SELECT 2"
      (";\s*(?!($|\s*--|\s*/\*))(?=\S)", Compiled NOFLAGS stacked_re)
  ∧ call source_order (detect_transaction_bypass_attempt "SELECT 1; SELECT 2")
    = Some true.
Proof.
  split; [reflexivity|]. split; [by vm_compute|].
  apply (stacked_rule_implies_bypass source_order "SELECT 1; SELECT 2"
           (";\s*(?!($|\s*--|\s*/\*))(?=\S)", Compiled NOFLAGS stacked_re)).
  - reflexivity.
  - by vm_compute.
Defined.

(** ** The empty string *)

(** C10.  On the empty string every entry point returns its no-finding
    value. *)
Theorem empty_string_no_finding kw_iter :
  call kw_iter (detect_mutating_keywords "") = Some []
  ∧ call kw_iter (check_sql_injection_risk "") = Some []
  ∧ call kw_iter (detect_transaction_bypass_attempt "") = Some false.
Proof. split_and!; by vm_compute. Qed.

(** ** UNION ... SELECT *)

Lemma search_union_select sql :
  fires sql union_select_pattern ↔ union_then_select (chars sql) one_line.
Proof.
  unfold fires. rewrite re_search_true.
  unfold union_select_pattern. cbn [snd c_re c_flags]. split.
  - intros (pre & t & suf & Hs & H).
    apply matches_seqs_cons in H as (? & t1 & -> & [-> Hb1] & H).
    apply matches_seqs_cons in H as (u & t2 & -> & Hu & H).
    apply matches_lits_ci in Hu; [|done].
    apply matches_seqs_cons in H as (? & t3 & -> & [-> Hb2] & H).
    apply matches_seqs_cons in H as (mid & t4 & -> & [_ Hmid] & H).
    apply matches_seqs_cons in H as (? & t5 & -> & [-> Hb3] & H).
    apply matches_seqs_cons in H as (sel & t6 & -> & Hsel & H).
    apply matches_lits_ci in Hsel; [|done].
    simpl in H. destruct H as [-> Hb4].
    exists pre, u, mid, sel, suf. revert Hs Hb1 Hb2 Hb3 Hb4. simpl.
    rewrite <-!lastp_app, !(right_id_L [] (++)), <-!(assoc_L (++)).
    intros Hs Hb1 Hb2 Hb3 Hb4. split_and!; try done.
    intros Hin. rewrite Forall_forall in Hmid. apply Hmid in Hin. done.
  - intros (pre & u & mid & sel & post & Hs & Hu & Hsel & Hb1 & Hb2 & Hb3
            & Hb4 & Hmid).
    exists pre, (u ++ mid ++ sel), post. split.
    { by rewrite Hs, <-!(assoc_L (++)). }
    revert Hb1 Hb2 Hb3 Hb4. unfold boundary.
    rewrite !lastp_app. intros Hb1 Hb2 Hb3 Hb4.
    apply matches_seqs_cons. exists [], (u ++ mid ++ sel).
    split_and!; [done|by split; [|rewrite <-!(assoc_L (++))]|].
    apply matches_seqs_cons. exists u, (mid ++ sel).
    split_and!; [done|by apply matches_lits_ci|].
    apply matches_seqs_cons. exists [], (mid ++ sel).
    split_and!; [done|by split; [|rewrite <-!(assoc_L (++))]|].
    apply matches_seqs_cons. exists mid, sel. split_and!; [done| |].
    { split; [simpl; lia|]. apply Forall_forall. intros x Hx. simpl.
      apply negb_true_iff, bool_decide_eq_false. by intros ->. }
    apply matches_seqs_cons. exists [], sel.
    split_and!; [done|by split|].
    apply matches_seqs_cons. exists sel, [].
    split_and!; [by rewrite (right_id_L [] (++))|by apply matches_lits_ci|].
    by simpl.
Qed.

(** C5, as the code has it.  When UNION is followed by SELECT later on the
    same line (no line break between the two words) and none of the first
    three patterns fires, the scanner returns exactly one finding, the one
    of the UNION ... SELECT pattern. *)
Theorem union_select_same_line kw_iter sql :
  union_then_select (chars sql) one_line →
  (∀ i e, SUSPICIOUS_PATTERNS_init !! i = Some e → i < 3 → ¬ fires sql e) →
  SUSPICIOUS_PATTERNS_init !! 3 = Some union_select_pattern
  ∧ call kw_iter (check_sql_injection_risk sql)
    = Some [issue union_select_pattern.1].
Proof.
  intros Hu Hno. split; [done|]. rewrite check_call, scan_patterns_find.
  apply search_union_select in Hu.
  destruct (list_find _ _) as [[i e]|] eqn:E.
  - apply list_find_Some in E as (Hi & He & Hfirst).
    destruct (decide (i = 3)) as [->|Hne]; [by injection Hi as <-|].
    destruct (decide (i < 3)) as [Hlt|Hge]; [by destruct (Hno i e)|].
    destruct (Hfirst 3 union_select_pattern); [done|lia|done].
  - apply list_find_None in E. rewrite Forall_forall in E.
    destruct (E union_select_pattern); [|done].
    by apply (list_elem_of_lookup_2 _ 3).
Qed.

Lemma union_select_same_line_witness :
  union_then_select (chars "a UNION ALL SELECT b") one_line
  ∧ (∀ i e, SUSPICIOUS_PATTERNS_init !! i = Some e → i < 3 →
            ¬ fires "a UNION ALL SELECT b" e)
  ∧ SUSPICIOUS_PATTERNS_init !! 3 = Some union_select_pattern
  ∧ call source_order (check_sql_injection_risk "a UNION ALL SELECT b")
    = Some [issue "(?i)\bunion\b.*\bselect\b"].
Proof.
  assert (union_then_select (chars "a UNION ALL SELECT b") one_line) as Hu.
  { exists (chars "a "), (chars "UNION"), (chars " ALL "), (chars "SELECT"),
      (chars " b").
    split_and!; [reflexivity..| | | | |]; try (by vm_compute).
    unfold one_line. by apply (bool_decide_unpack _). }
  assert (∀ i e, SUSPICIOUS_PATTERNS_init !! i = Some e → i < 3 →
                 ¬ fires "a UNION ALL SELECT b" e) as Hno.
  { intros i e Hi Hlt Hf. unfold fires in Hf.
    destruct i as [|[|[|i]]]; [| | |lia]; injection Hi as <-;
      by vm_compute in Hf. }
  split; [exact Hu|]. split; [exact Hno|].
  exact (union_select_same_line source_order "a UNION ALL SELECT b" Hu Hno).
Defined.

(** C5, as the claim has it, fails: with a line break between UNION and
    SELECT, and none of the first three patterns firing, the scanner
    returns no finding. *)
Lemma union_newline_select_not_reported :
  ¬ ∀ sql,
      union_then_select (chars sql) (λ _, True) →
      (∀ i e, SUSPICIOUS_PATTERNS_init !! i = Some e → i < 3 →
              ¬ fires sql e) →
      call source_order (check_sql_injection_risk sql)
      = Some [issue union_select_pattern.1].
Proof.
  intros H. specialize (H union_newline_select).
  assert (call source_order (check_sql_injection_risk union_newline_select)
          = Some []) as Hnone by by vm_compute.
  rewrite Hnone in H. discriminate H.
  - exists [], (chars "UNION"), [LF], (chars "SELECT"), (chars " 1").
    split_and!; [reflexivity..| | | | |]; by vm_compute.
  - intros i e Hi Hlt Hf. unfold fires in Hf.
    destruct i as [|[|[|i]]]; [| | |lia]; injection Hi as <-;
      by vm_compute in Hf.
Qed.

(** ** The category matcher and FLUSH *)

Lemma detect_run T sql :
  ∃ found,
    findall (MUTATING_PATTERN T) sql = Some found
    ∧ detect_mutating_keywords sql T
      = Some (category_labels T sql ++ keyword_labels found, T).
Proof.
  destruct (findall_total (MUTATING_PATTERN T) sql) as [found Hf].
  exists found. split; [done|].
  unfold detect_mutating_keywords, bind, global, bounded, ret, category_labels.
  rewrite Hf.
  destruct (truthy (re_search (DDL_REGEX T) sql)),
    (truthy (re_search (PERMISSION_REGEX T) sql)),
    (truthy (re_search (SYSTEM_REGEX T) sql)),
    (truthy (re_search (TRANSACTION_CONTROL_REGEX T) sql)),
    found; simpl; by rewrite ?(right_id_L [] (++)).
Qed.

Lemma lastp_blank prev w :
  w ≠ [] → blank_run w → word_before (lastp prev w) = false.
Proof.
  revert prev. induction w as [|x w IH]; intros prev Hne Hw; [done|].
  apply Forall_cons in Hw as [Hx Hw]. destruct w as [|y w].
  - simpl. destruct (is_word x) eqn:E; [|done].
    apply word_not_space in E. congruence.
  - by apply (IH (Some x)).
Qed.

Lemma flush_statement_system sql :
  flush_statement (chars sql) →
  truthy (re_search SYSTEM_REGEX_init sql) = true.
Proof.
  intros (lead & f & w & c & rest & Hs & Hlead & Hf & Hw & Hne & Hc).
  apply re_search_true. exists [], (lead ++ f ++ w), (c :: rest). split.
  { by rewrite Hs, <-!(assoc_L (++)). }
  unfold SYSTEM_REGEX_init, Group. cbn [c_re c_flags].
  apply matches_seqs_cons. exists [], (lead ++ f ++ w).
  split_and!; [done|done|].
  apply matches_seqs_cons. exists lead, (f ++ w).
  split_and!; [done|by split; [simpl; lia|]|].
  apply matches_seqs_cons. exists (f ++ w), [].
  split_and!; [by rewrite (right_id_L [] (++))| |].
  - apply matches_alts. eexists. split.
    { by apply (list_elem_of_lookup_2 _ 2). }
    apply matches_seqs_cons. exists f, w.
    split_and!; [done|by apply matches_lits_ci|].
    apply matches_seqs_cons. exists w, [].
    split_and!; [by rewrite (right_id_L [] (++))| |by right].
    split; [|done]. destruct w; [done|simpl; lia].
  - simpl. split; [done|]. rewrite !lastp_app, lastp_blank, Hc; done.
Qed.

(** C6, as the code has it.  A statement that, after leading blanks, begins
    with FLUSH followed by at least one blank and then a word character --
    one of the listed followers or any other word -- is classified
    SYSTEM. *)
Theorem flush_with_follower_is_system kw_iter sql :
  flush_statement (chars sql) →
  ∃ labels, call kw_iter (detect_mutating_keywords sql) = Some labels
            ∧ "SYSTEM" ∈ labels.
Proof.
  intros Hflush%flush_statement_system.
  destruct (detect_run (module_init kw_iter) sql) as (found & _ & Hrun).
  unfold call. rewrite Hrun. eexists. split; [done|].
  unfold category_labels. cbn [SYSTEM_REGEX module_init]. rewrite Hflush.
  set_solver.
Qed.

Lemma flush_with_follower_is_system_witness :
  flush_statement (chars "  flush binary logs")
  ∧ ∃ labels,
      call source_order (detect_mutating_keywords "  flush binary logs")
      = Some labels ∧ "SYSTEM" ∈ labels.
Proof.
  assert (flush_statement (chars "  flush binary logs")) as H.
  { exists (chars "  "), (chars "flush"), (chars " "), "b"%char,
      (chars "inary logs").
    split_and!;
      [reflexivity|by repeat constructor|reflexivity|by repeat constructor
      |done|reflexivity]. }
  split; [exact H|].
  exact (flush_with_follower_is_system source_order "  flush binary logs" H).
Defined.

(** C6, as the claim has it, fails: the statement that is exactly FLUSH is
    not classified SYSTEM, because the pattern asks for a blank after the
    word. *)
Lemma bare_flush_not_system :
  ¬ ∃ labels,
      call source_order (detect_mutating_keywords "FLUSH") = Some labels
      ∧ "SYSTEM" ∈ labels.
Proof.
  intros (labels & H & Hin). vm_compute in H. injection H as <-.
  by apply elem_of_nil in Hin.
Qed.

(** ** Totality and purity *)




(** C7.  Each entry point finishes on every input with a value: a list of
    labels, a list of findings, a boolean.  In particular the bounded
    [findall] loop never runs out of its bound. *)
Theorem entry_points_total kw_iter sql :
  (∃ labels, call kw_iter (detect_mutating_keywords sql) = Some labels)
  ∧ (∃ issues, call kw_iter (check_sql_injection_risk sql) = Some issues)
  ∧ (∃ b, call kw_iter (detect_transaction_bypass_attempt sql) = Some b).
Proof.
  split_and!.
  - destruct (detect_run (module_init kw_iter) sql) as (found & _ & Hrun).
    unfold call. rewrite Hrun. by eexists.
  - rewrite check_call. by eexists.
  - rewrite bypass_call. by eexists.
Qed.


(** ** What [findall] collects

    For a pattern whose matches are never empty, are determined by where
    they start, and never contain the start of another match, [findall]
    returns the text of every match, and nothing else. *)

Lemma findall_loop_sound fl r fuel adv prev s found x :
  findall_loop fuel fl r adv prev s = Some found → x ∈ found →
  ∃ pre t suf, x = text t ∧ occurrence fl r prev s pre t suf.
Proof.
  revert adv prev s found.
  induction fuel as [|fuel IH]; intros adv prev s found; [done|]. simpl.
  destruct (scan fl r adv prev s) as [[t0 [p0 s0]]|] eqn:E;
    [|by intros [= <-] ?%elem_of_nil].
  destruct (findall_loop fuel _ _ _ _ _) as [found'|] eqn:E'; [|done].
  intros [= <-] Hx. apply scan_Some in E as (pre0 & -> & Hin & _).
  apply m_spec in Hin as (t' & Ht & Hp0 & Hm). simpl in *.
  apply app_inv_tail in Ht as <-.
  apply elem_of_cons in Hx as [->|Hx].
  - exists pre0, t0, s0. by split.
  - destruct (IH _ _ _ _ E' Hx) as (pre & t & suf & -> & -> & Hm').
    exists (pre0 ++ t0 ++ pre), t, suf. split; [done|]. split.
    + by rewrite <-!(assoc_L (++)).
    + by rewrite !lastp_app, <-Hp0.
Qed.

Section findall_complete.
Variables (fl : flags) (r : regex).

(** Matches are never empty. *)
Hypothesis Hnever : never_empty fl r.
(** At one position the pattern matches one text only. *)
Hypothesis Hunique : ∀ prev t s t' s',
  matches fl r prev t s → matches fl r prev t' s' →
  t ++ s = t' ++ s' → t = t'.
(** No match starts strictly inside another. *)
Hypothesis Hapart : ∀ prev d e s t' s',
  d ≠ [] → e ≠ [] → matches fl r prev (d ++ e) s →
  e ++ s = t' ++ s' → ¬ matches fl r (lastp prev d) t' s'.

Lemma findall_loop_complete fuel adv prev s found pre t suf :
  findall_loop fuel fl r adv prev s = Some found →
  occurrence fl r prev s pre t suf → text t ∈ found.
Proof using Hnever Hunique Hapart.
  revert adv prev s found pre.
  induction fuel as [|fuel IH]; intros adv prev s found pre; [done|].
  simpl. rewrite scan_never_empty by done. intros Hloop [Hs Hm].
  assert ((lastp (lastp prev pre) t, suf)
            ∈ m fl r (lastp prev pre) (t ++ suf)) as Hin.
  { apply m_spec. eauto. }
  destruct (scan fl r false prev s) as [[t0 [p0 s0]]|] eqn:E.
  2:{ rewrite (proj1 (scan_None _ _ _ _) E pre (t ++ suf) Hs) in Hin.
      by apply elem_of_nil in Hin. }
  destruct (findall_loop fuel _ _ _ _ _) as [found'|] eqn:E'; [|done].
  injection Hloop as <-.
  apply scan_first in E as (pre0 & Hs0 & Hhd & Hfirst). simpl in *.
  apply head_Some_elem_of, m_spec in Hhd as (t' & Ht & Hp0 & Hm0).
  simpl in *. apply app_inv_tail in Ht as <-.
  rewrite Hs0 in Hs. apply app_eq_inv in Hs as [(d & -> & Hd)|(d & -> & Hd)].
  - destruct d as [|c d].
    + rewrite (right_id_L [] (++)) in *. simpl in Hd.
      rewrite (Hunique _ _ _ _ _ Hm Hm0 Hd). left.
    + rewrite Hd, (Hfirst pre (c :: d) eq_refl) in Hin by done.
      by apply elem_of_nil in Hin.
  - destruct d as [|c d].
    + rewrite (right_id_L [] (++)) in *. simpl in Hd.
      rewrite (Hunique _ _ _ _ _ Hm Hm0 (eq_sym Hd)). left.
    + apply app_eq_inv in Hd as [(e & -> & He)|(e & He & ->)].
      * destruct e as [|c' e].
        -- rewrite (right_id_L [] (++)) in *. simpl in He. right.
           apply (IH _ _ _ _ [] E'). split; [by rewrite <-He|].
           simpl. by rewrite Hp0, <-lastp_app.
        -- exfalso. rewrite lastp_app in Hm.
           by apply (Hapart (lastp prev pre0) (c :: d) (c' :: e) s0 t suf).
      * right. apply (IH _ _ _ _ e E'). split; [done|].
        rewrite He, !lastp_app in Hm. by rewrite Hp0.
Qed.
End findall_complete.

(** ** The keyword pattern *)

Lemma keywords_apart_ok : keywords_apart = true.
Proof. by vm_compute. Qed.

Lemma keyword_shape_ok k : k ∈ source_order → keyword_shape k = true.
Proof.
  intros Hk%list_elem_of_In. pose proof keywords_apart_ok as H.
  unfold keywords_apart in H. rewrite forallb_forall in H.
  by apply H, andb_true_iff in Hk as [? _].
Qed.

Lemma apart_at_ok k k' j :
  k ∈ source_order → k' ∈ source_order → j < length (chars k) →
  apart_at k k' j = true.
Proof.
  intros Hk%list_elem_of_In Hk'%list_elem_of_In Hj.
  pose proof keywords_apart_ok as H.
  unfold keywords_apart in H. rewrite forallb_forall in H.
  apply H, andb_true_iff in Hk as [_ Hk]. rewrite forallb_forall in Hk.
  apply Hk in Hk'. rewrite forallb_forall in Hk'. apply Hk'.
  apply list_elem_of_In, elem_of_seq. lia.
Qed.

Lemma ci_eq_length k t : ci_eq k t → length t = length (chars k).
Proof. intros H%(f_equal length). by rewrite !length_fmap in H. Qed.

Lemma word_after_lower t : word_after (tolower <$> t) = word_after t.
Proof. destruct t; [done|]. apply tolower_word. Qed.

Lemma ci_eq_word_after k t :
  ci_eq k t → keyword_shape k = true → word_after t = true.
Proof.
  intros Hci [Hw _]%andb_true_iff.
  by rewrite <-word_after_lower, Hci, word_after_lower.
Qed.

Lemma lastp_word_lower p q (d d' : list ascii) :
  d ≠ [] → tolower <$> d = tolower <$> d' →
  word_before (lastp p d) = word_before (lastp q d').
Proof.
  revert p q d'. induction d as [|x d IH]; intros p q [|x' d'] Hne Heq;
    try done.
  injection Heq as Hx Hd. destruct d as [|y d].
  - destruct d'; [|done]. simpl.
    by rewrite <-(tolower_word x), Hx, tolower_word.
  - by apply (IH (Some x) (Some x') d').
Qed.

Lemma fmap_prefix {A B} (f : A → B) (l1 l2 : list A) :
  l1 `prefix_of` l2 → f <$> l1 `prefix_of` f <$> l2.
Proof. intros [k ->]. exists (f <$> k). apply fmap_app. Qed.

Lemma comparable_heads (a b s a' s' : list ascii) :
  a ++ s = a' ++ s' → comparable (tolower <$> a) (tolower <$> a').
Proof.
  intros Heq.
  destruct (prefix_weak_total a a' (a ++ s)) as [H|H];
    [by eexists|by rewrite Heq; eexists| |];
    [left|right]; by apply fmap_prefix.
Qed.

Lemma matches_mutating kws prev t s :
  matches IGNORECASE (c_re (MUTATING_PATTERN_init kws)) prev t s ↔
  (∃ k, k ∈ kws ∧ ci_eq k t)
  ∧ word_before prev ≠ word_after (t ++ s)
  ∧ word_before (lastp prev t) ≠ word_after s.
Proof.
  unfold MUTATING_PATTERN_init, Group. cbn [c_re]. split.
  - intros (? & t1 & -> & [-> Hb1] & H)%matches_seqs_cons.
    apply matches_seqs_cons in H as (t2 & ? & -> & Hk & H).
    simpl in H. destruct H as [-> Hb2].
    apply matches_alts in Hk as (r & Hr & Hk).
    apply list_elem_of_fmap in Hr as (k & -> & Hin).
    apply matches_lits_ci in Hk; [|done].
    revert Hb1 Hb2. simpl. rewrite !(right_id_L [] (++)). eauto 10.
  - intros ((k & Hin & Hk) & Hb1 & Hb2).
    apply matches_seqs_cons. exists [], t. split_and!; [done|by split|].
    apply matches_seqs_cons. exists t, [].
    split_and!; [by rewrite (right_id_L [] (++))| |by split].
    apply matches_alts. exists (lits k). split.
    + by apply list_elem_of_fmap_2.
    + by apply matches_lits_ci.
Qed.

Section keyword_order.
(** The order in which the set of keywords happened to be iterated when
    the pattern was built. *)
Variable kw_iter : list string.
Hypothesis Hiter : kw_iter ≡ₚ elements MUTATING_KEYWORDS_init.

Lemma kw_iter_source k : k ∈ kw_iter ↔ k ∈ source_order.
Proof using Hiter.
  rewrite Hiter, elem_of_elements. apply elem_of_list_to_set.
Qed.

Lemma mutating_never_empty :
  never_empty IGNORECASE (c_re (MUTATING_PATTERN_init kw_iter)).
Proof using Hiter.
  intros prev t s ((k & Hin%kw_iter_source & Hk) & _)%matches_mutating ->.
  apply ci_eq_word_after in Hk; [done|by apply keyword_shape_ok].
Qed.

Lemma mutating_unique prev t s t' s' :
  matches IGNORECASE (c_re (MUTATING_PATTERN_init kw_iter)) prev t s →
  matches IGNORECASE (c_re (MUTATING_PATTERN_init kw_iter)) prev t' s' →
  t ++ s = t' ++ s' → t = t'.
Proof using Hiter.
  intros ((k & Hin%kw_iter_source & Hk) & _)%matches_mutating
    ((k' & Hin'%kw_iter_source & Hk') & _)%matches_mutating Heq.
  assert (k = k') as <-.
  { assert (0 < length (chars k)) as Hlen.
    { pose proof (keyword_shape_ok k Hin) as [Hw _]%andb_true_iff.
      destruct (chars k); [done|simpl; lia]. }
    pose proof (apart_at_ok k k' 0 Hin Hin' Hlen) as H. simpl in H.
    apply orb_true_iff in H as [H|H]; [by apply bool_decide_eq_true in H|].
    apply negb_true_iff, bool_decide_eq_false in H. destruct H.
    unfold lower_chars. rewrite <-Hk, <-Hk'. by eapply comparable_heads. }
  apply ci_eq_length in Hk, Hk'.
  destruct (prefix_weak_total t t' (t ++ s)) as [H|H];
    [by eexists|by rewrite Heq; eexists| |].
  - apply prefix_length_eq; [done|lia].
  - symmetry. apply prefix_length_eq; [done|lia].
Qed.

Lemma mutating_apart prev d e s t' s' :
  d ≠ [] → e ≠ [] →
  matches IGNORECASE (c_re (MUTATING_PATTERN_init kw_iter)) prev (d ++ e) s →
  e ++ s = t' ++ s' →
  ¬ matches IGNORECASE (c_re (MUTATING_PATTERN_init kw_iter))
      (lastp prev d) t' s'.
Proof using Hiter.
  intros Hd He ((k & Hin%kw_iter_source & Hk) & _)%matches_mutating Heq
    ((k' & Hin'%kw_iter_source & Hk') & Hb & _)%matches_mutating.
  pose proof (ci_eq_length _ _ Hk) as Hlen. rewrite length_app in Hlen.
  assert (length d < length (chars k)) as Hj.
  { destruct e; [done|]. simpl in Hlen. lia. }
  pose proof (apart_at_ok k k' (length d) Hin Hin' Hj) as H.
  unfold ci_eq in Hk. rewrite fmap_app in Hk.
  assert (tolower <$> d = tolower <$> take (length d) (chars k)
          ∧ tolower <$> e = drop (length d) (lower_chars k)) as [Hkd Hke].
  { unfold lower_chars. rewrite fmap_take, <-Hk.
    rewrite <-(length_fmap tolower d), take_app_length, drop_app_length.
    done. }
  destruct (length d) as [|j] eqn:Ed; [by destruct d|].
  simpl in H. apply orb_true_iff in H as [H|H].
  - rewrite <-(lastp_word_lower prev None d _ Hd Hkd) in H.
    rewrite H in Hb. apply Hb. symmetry.
    assert (word_after t' = true) as Ht'
      by (eapply ci_eq_word_after; [done|by apply keyword_shape_ok]).
    destruct t'; [done|]. exact Ht'.
  - apply negb_true_iff, bool_decide_eq_false in H. destruct H.
    rewrite <-Hke. unfold lower_chars. rewrite <-Hk'.
    by eapply comparable_heads.
Qed.
End keyword_order.

(** ** The labels of the category matcher *)

Lemma chars_text l : chars (text l) = l.
Proof. apply Stdlib.Strings.String.list_ascii_of_string_of_list_ascii. Qed.

Lemma text_chars s : text (chars s) = s.
Proof. apply Stdlib.Strings.String.string_of_list_ascii_of_string. Qed.

(** The text of a keyword match is the keyword once put in capitals. *)
Lemma keyword_like_upper k t :
  keyword_shape k = true → ci_eq k t → upper (text t) = k.
Proof.
  intros [_ Hup]%andb_true_iff Hk. unfold upper. rewrite chars_text.
  rewrite <-(text_chars k). f_equal.
  transitivity (upper_char <$> (tolower <$> t)).
  { rewrite <-list_fmap_compose. apply list_fmap_ext. intros i x _. simpl.
    by rewrite upper_tolower. }
  rewrite Hk, <-list_fmap_compose.
  rewrite forallb_forall in Hup.
  etrans; [|apply list_fmap_id]. apply list_fmap_ext. intros i x Hx. simpl.
  rewrite upper_tolower. apply (bool_decide_eq_true_1 _), Hup, list_elem_of_In.
  by eapply list_elem_of_lookup_2.
Qed.

Lemma sorted_upper_set_spec found :
  Sorted String.le (sorted_upper_set found)
  ∧ NoDup (sorted_upper_set found)
  ∧ ∀ w, w ∈ sorted_upper_set found ↔ ∃ x, x ∈ found ∧ upper x = w.
Proof.
  unfold sorted_upper_set. split_and!.
  - apply (Sorted_merge_sort _).
  - rewrite merge_sort_Permutation. apply NoDup_elements.
  - intros w. rewrite merge_sort_Permutation, elem_of_elements,
      elem_of_list_to_set, list_elem_of_fmap. naive_solver.
Qed.

Lemma keyword_labels_sorted found :
  keyword_labels found = sorted_upper_set found.
Proof. by destruct found. Qed.


Lemma detect_mutating_keywords_labels kw_iter sql :
  kw_iter ≡ₚ elements MUTATING_KEYWORDS_init →
  ∃ kws,
    call kw_iter (detect_mutating_keywords sql)
    = Some (category_labels (module_init kw_iter) sql ++ kws)
    ∧ Sorted String.le kws ∧ NoDup kws
    ∧ ∀ w, w ∈ kws ↔
           w ∈ MUTATING_KEYWORDS_init ∧ whole_word_occurrence w (chars sql).
Proof.
  intros Hiter.
  destruct (detect_run (module_init kw_iter) sql) as (found & Hf & Hrun).
  exists (keyword_labels found). unfold call. rewrite Hrun.
  split; [done|]. rewrite keyword_labels_sorted.
  destruct (sorted_upper_set_spec found) as (Hsorted & Hnodup & Hmem).
  split_and!; [done..|]. intros w. rewrite Hmem.
  cbn [MUTATING_PATTERN module_init] in Hf. split.
  - intros (x & Hx & <-). unfold findall in Hf.
    destruct (findall_loop_sound _ _ _ _ _ _ _ _ Hf Hx)
      as (pre & t & suf & -> & Hs & Hm).
    cbn [c_flags MUTATING_PATTERN_init] in Hm.
    apply matches_mutating in Hm as ((k & Hk & Hci) & Hb1 & Hb2).
    apply (kw_iter_source _ Hiter) in Hk.
    rewrite (keyword_like_upper k t) by auto using keyword_shape_ok.
    split; [by apply elem_of_list_to_set|].
    exists pre, t, suf. unfold boundary. by rewrite lastp_app.
  - intros [Hw%elem_of_list_to_set (pre & t & suf & Hs & Hci & Hb1 & Hb2)].
    exists (text t). split.
    + unfold findall in Hf.
      eapply (findall_loop_complete _ _ (mutating_never_empty _ Hiter)
                (mutating_unique _ Hiter) (mutating_apart _ Hiter)
                _ _ _ _ _ pre t suf Hf).
      split; [done|]. cbn [c_flags MUTATING_PATTERN_init].
      apply matches_mutating. split_and!.
      * exists w. split; [by apply (kw_iter_source _ Hiter)|done].
      * done.
      * revert Hb2. unfold boundary. by rewrite lastp_app.
    + by apply keyword_like_upper; [apply keyword_shape_ok|].
Qed.






(** * Further properties of the three functions *)

(** ** The bypass detector and the scanner's stacked-statement pattern *)

Lemma bypass_answer sql :
  truthy (re_search commit_bypass_pattern sql)
  || truthy (re_search multiple_statements sql)
  = truthy (re_search multiple_statements sql).
Proof.
  destruct (truthy (re_search commit_bypass_pattern sql)) eqn:E; [|done].
  apply search_commit, commit_then_statement_stacked in E.
  symmetry. by apply search_stacked.
Qed.

(** X1.  The detector's answer is exactly whether the stacked-statement
    pattern, which is also the eighth pattern of the scanner, is found in
    the subject: the COMMIT pattern never changes the answer. *)
Theorem bypass_is_stacked_pattern kw_iter sql :
  snd <$> SUSPICIOUS_PATTERNS_init !! 7 = Some multiple_statements
  ∧ call kw_iter (detect_transaction_bypass_attempt sql)
    = Some (truthy (re_search multiple_statements sql)).
Proof. split; [done|]. by rewrite bypass_call, bypass_answer. Qed.

Lemma stacked_fires_scanner sql :
  truthy (re_search multiple_statements sql) = true →
  ∃ i e, list_find (fires sql) SUSPICIOUS_PATTERNS_init = Some (i, e) ∧ i ≤ 7.
Proof.
  intros H.
  destruct (list_find (fires sql) SUSPICIOUS_PATTERNS_init) as [[i e]|] eqn:E.
  - exists i, e. split; [done|].
    apply list_find_Some in E as (_ & _ & Hfirst).
    destruct (decide (i ≤ 7)) as [|Hgt]; [done|].
    destruct (Hfirst 7 _ eq_refl); [lia|exact H].
  - apply list_find_None in E. rewrite Forall_forall in E.
    destruct (E (";\s*(?!($|\s*--|\s*/\*))(?=\S)", multiple_statements));
      [|exact H].
    by apply (list_elem_of_lookup_2 _ 7).
Qed.

(** X2.  Whenever the bypass detector answers true, the injection scanner
    returns a finding for the same input. *)
Theorem bypass_implies_finding kw_iter sql :
  call kw_iter (detect_transaction_bypass_attempt sql) = Some true →
  ∃ f, call kw_iter (check_sql_injection_risk sql) = Some [f].
Proof.
  rewrite bypass_call, bypass_answer. intros [= H].
  apply stacked_fires_scanner in H as (i & e & Hfind & _).
  rewrite check_call, scan_patterns_find, Hfind. by eexists.
Qed.

Lemma bypass_implies_finding_witness :
  call source_order (detect_transaction_bypass_attempt "a; b") = Some true
  ∧ ∃ f, call source_order (check_sql_injection_risk "a; b") = Some [f].
Proof.
  assert (call source_order (detect_transaction_bypass_attempt "a; b")
          = Some true) as H by by vm_compute.
  split; [exact H|]. exact (bypass_implies_finding source_order "a; b" H).
Defined.

Lemma fires_last_stacked sql e :
  SUSPICIOUS_PATTERNS_init !! 14 = Some e → fires sql e →
  stacked_statement (chars sql).
Proof.
  intros [= <-]. unfold fires. rewrite re_search_true. cbn [snd c_re c_flags].
  intros (pre & t & suf & Hs & H).
  destruct H as (? & t1 & -> & [-> _] & H).
  destruct H as (k & t2 & -> & _ & H).
  destruct H as (? & t3 & -> & [-> _] & H).
  destruct H as (mid & t4 & -> & _ & H).
  destruct H as (? & t5 & -> & (x & -> & Hx) & H).
  apply lit_eq_caseless in Hx as ->; [|apply caseless_semicolon].
  destruct H as (w & wd & -> & [_ Hw] & [Hlen Hwd]).
  destruct wd as [|c wd]; [simpl in Hlen; lia|].
  apply Forall_cons in Hwd as [Hc _].
  exists (pre ++ k ++ mid), w, c, (wd ++ suf). split_and!.
  - rewrite Hs. simpl. rewrite <-!(assoc_L (++)). simpl.
    by rewrite <-!(assoc_L (++)).
  - done.
  - by apply word_not_space.
  - by apply word_no_comment.
Qed.

(** X3.  The scanner never reports its last pattern (a transaction keyword
    followed later by a semicolon and a word): whenever that pattern
    matches, the stacked-statement pattern, which comes earlier in the
    list, matches too. *)
Theorem last_pattern_never_reported kw_iter sql :
  ∃ e, SUSPICIOUS_PATTERNS_init !! 14 = Some e
       ∧ length SUSPICIOUS_PATTERNS_init = 15
       ∧ (fires sql e → truthy (re_search multiple_statements sql) = true)
       ∧ ∀ found, call kw_iter (check_sql_injection_risk sql) = Some found →
                  issue e.1 ∉ found.
Proof.
  eexists. split; [reflexivity|]. split; [done|]. split.
  { intros H. eapply search_stacked, fires_last_stacked; [reflexivity|done]. }
  intros found. rewrite check_call, scan_patterns_find.
  intros Hf%(inj Some) Hin. rewrite <-Hf in Hin. clear Hf.
  destruct (list_find _ _) as [[i e]|] eqn:E; [|by apply elem_of_nil in Hin].
  apply list_elem_of_singleton, issue_inj in Hin.
  apply list_find_Some in E as (Hi & He & Hfirst).
  assert (i = 14) as ->.
  { eapply (NoDup_lookup _ i 14 e.1); [apply sources_distinct| |].
    - by rewrite list_lookup_fmap, Hi.
    - by rewrite <-Hin. }
  apply (fires_last_stacked _ _ Hi), (search_stacked NOFLAGS) in He.
  destruct (Hfirst 7 _ eq_refl); [lia|exact He].
Qed.

(** ** Statements that end in a semicolon *)

Lemma first_of_two (x : ascii) a b c d :
  x ∉ a → a ++ x :: b = c ++ x :: d → (c = a ∧ d = b) ∨ x ∈ b.
Proof.
  revert c. induction a as [|y a IH]; intros [|z c] Ha Heq; simpl in *.
  - injection Heq as ->. by left.
  - injection Heq as _ ->. right. set_solver.
  - injection Heq as -> _. set_solver.
  - injection Heq as -> Heq. apply IH in Heq as [[-> ->]|?]; [by left|by right|].
    set_solver.
Qed.

Lemma no_semicolon_not_stacked s :
  ";"%char ∉ s → ¬ stacked_statement s.
Proof. intros Hs (pre & w & c & rest & -> & _). set_solver. Qed.

Lemma trailing_semicolon_not_stacked body w :
  ";"%char ∉ body → blank_run w → ¬ stacked_statement (body ++ ";"%char :: w).
Proof.
  intros Hbody Hw (pre & w' & c & rest & Heq & _ & Hc & _).
  unfold blank_run in Hw. rewrite Forall_forall in Hw.
  destruct (first_of_two _ _ _ _ _ Hbody Heq) as [[_ Heq']|Hin].
  - assert (is_space c = true); [|congruence].
    apply Hw. rewrite <-Heq'. set_solver.
  - by apply Hw in Hin.
Qed.

(** X4.  A subject without a semicolon is never flagged by the bypass
    detector, and neither is the same subject with one semicolon added at
    its end, followed by blanks only. *)
Theorem single_statement_not_flagged kw_iter body w :
  ";"%char ∉ body → blank_run w →
  call kw_iter (detect_transaction_bypass_attempt (text body)) = Some false
  ∧ call kw_iter
      (detect_transaction_bypass_attempt (text (body ++ ";"%char :: w)))
    = Some false.
Proof.
  intros Hbody Hw. rewrite !bypass_call, !bypass_answer. unfold multiple_statements.
  split; f_equal; apply not_true_is_false; rewrite search_stacked, chars_text.
  - by apply no_semicolon_not_stacked.
  - by apply trailing_semicolon_not_stacked.
Qed.

Lemma single_statement_not_flagged_witness :
  (";"%char ∉ chars "SELECT a, b FROM t")
  ∧ blank_run (chars "  ")
  ∧ call source_order
      (detect_transaction_bypass_attempt (text (chars "SELECT a, b FROM t")))
    = Some false
  ∧ call source_order
      (detect_transaction_bypass_attempt
         (text (chars "SELECT a, b FROM t" ++ ";"%char :: chars "  ")))
    = Some false.
Proof.
  assert (";"%char ∉ chars "SELECT a, b FROM t") as H1
    by (apply (bool_decide_unpack _); by vm_compute).
  assert (blank_run (chars "  ")) as H2 by by repeat constructor.
  split; [exact H1|]. split; [exact H2|].
  exact (single_statement_not_flagged source_order _ _ H1 H2).
Defined.

(** ** The category matcher and the scanner on the same words *)

Lemma search_whole_word k sql :
  truthy (re_search (Compiled IGNORECASE (seqs [WordB; lits k; WordB])) sql)
  = true ↔ whole_word_occurrence k (chars sql).
Proof.
  rewrite re_search_true. cbn [c_re c_flags]. split.
  - intros (pre & t & suf & Hs & H).
    apply matches_seqs_cons in H as (? & t1 & -> & [-> Hb1] & H).
    apply matches_seqs_cons in H as (v & ? & -> & Hv & [-> Hb2]).
    apply matches_lits_ci in Hv; [|done].
    exists pre, v, suf. revert Hs Hb1 Hb2. simpl. unfold boundary.
    rewrite !(right_id_L [] (++)), <-lastp_app. intros. by split_and!.
  - intros (pre & v & suf & Hs & Hv & Hb1 & Hb2).
    exists pre, v, suf. split; [done|].
    apply matches_seqs_cons. exists [], v. split_and!; [done|by split|].
    apply matches_seqs_cons. exists v, [].
    split_and!; [by rewrite (right_id_L [] (++))|by apply matches_lits_ci|].
    split; [done|]. revert Hb2. unfold boundary. by rewrite lastp_app.
Qed.

Lemma category_label_names T sql l :
  l ∈ category_labels T sql →
  l ∈ ["DDL"; "PERMISSION"; "SYSTEM"; "TRANSACTION_CONTROL"].
Proof.
  unfold category_labels.
  destruct (truthy _), (truthy _), (truthy _), (truthy _); set_solver.
Qed.

Lemma keyword_in_set_iff k : k ∈ MUTATING_KEYWORDS_init ↔ k ∈ source_order.
Proof. apply elem_of_list_to_set. Qed.

Lemma category_names_no_keywords l :
  l ∈ ["DDL"; "PERMISSION"; "SYSTEM"; "TRANSACTION_CONTROL"] →
  l ∉ MUTATING_KEYWORDS_init.
Proof.
  intros Hl. rewrite keyword_in_set_iff.
  repeat (apply elem_of_cons in Hl as [->|Hl]);
    [apply (bool_decide_unpack _); by vm_compute..
    |by apply elem_of_nil in Hl].
Qed.

Lemma keyword_in_set k : k ∈ source_order → k ∈ MUTATING_KEYWORDS_init.
Proof. apply keyword_in_set_iff. Qed.

(** A keyword is among the labels exactly when it stands in the subject as
    a whole word. *)
Lemma keyword_label_iff kw_iter sql labels k :
  kw_iter ≡ₚ elements MUTATING_KEYWORDS_init →
  call kw_iter (detect_mutating_keywords sql) = Some labels →
  k ∈ MUTATING_KEYWORDS_init →
  k ∈ labels ↔ whole_word_occurrence k (chars sql).
Proof.
  intros Hiter Hcall Hk.
  destruct (detect_mutating_keywords_labels kw_iter sql Hiter)
    as (kws & Hcall' & _ & _ & Hm).
  rewrite Hcall' in Hcall. apply (inj Some) in Hcall as <-.
  rewrite elem_of_app, Hm. split; [|by right].
  intros [Hcat|[_ ?]]; [|done].
  by apply category_label_names, category_names_no_keywords in Hcat.
Qed.



(** X6.  Whenever the category matcher reports one of the keywords DROP,
    TRUNCATE, GRANT or REVOKE, the scanner returns a finding for the same
    input. *)
Theorem destructive_keyword_implies_finding kw_iter sql labels :
  kw_iter ≡ₚ elements MUTATING_KEYWORDS_init →
  call kw_iter (detect_mutating_keywords sql) = Some labels →
  "DROP" ∈ labels ∨ "TRUNCATE" ∈ labels ∨ "GRANT" ∈ labels
  ∨ "REVOKE" ∈ labels →
  ∃ f, call kw_iter (check_sql_injection_risk sql) = Some [f].
Proof.
  intros Hiter Hcall Hk. rewrite check_call, scan_patterns_find.
  destruct (list_find _ _) as [[i e]|] eqn:E; [by eexists|]. exfalso.
  apply list_find_None in E. rewrite Forall_forall in E.
  rewrite !(keyword_label_iff _ _ _ _ Hiter Hcall) in Hk
    by (apply keyword_in_set; repeat constructor).
  assert (∀ i e, SUSPICIOUS_PATTERNS_init !! i = Some e → ¬ fires sql e)
    as Hno by (intros i e Hi; by eapply E, list_elem_of_lookup_2).
  destruct Hk as [Hk|[Hk|[Hk|Hk]]].
  - apply (search_whole_word "drop") in Hk.
    by apply (Hno 4 _ eq_refl).
  - apply (search_whole_word "truncate") in Hk.
    by apply (Hno 5 _ eq_refl).
  - apply (search_whole_word "grant"), re_search_true in Hk.
    destruct Hk as (pre & t & suf & Hs & Hm).
    apply (Hno 6 _ eq_refl).
    unfold fires. apply re_search_true. exists pre, t, suf.
    split; [done|]. by left.
  - apply (search_whole_word "revoke"), re_search_true in Hk.
    destruct Hk as (pre & t & suf & Hs & Hm).
    apply (Hno 6 _ eq_refl).
    unfold fires. apply re_search_true. exists pre, t, suf.
    split; [done|]. by right.
Qed.

Lemma destructive_keyword_implies_finding_witness :
  elements MUTATING_KEYWORDS_init ≡ₚ elements MUTATING_KEYWORDS_init
  ∧ call (elements MUTATING_KEYWORDS_init)
      (detect_mutating_keywords "revoke all on t from u")
    = Some ["PERMISSION"; "REVOKE"]
  ∧ ("DROP" ∈ ["PERMISSION"; "REVOKE"] ∨ "TRUNCATE" ∈ ["PERMISSION"; "REVOKE"]
     ∨ "GRANT" ∈ ["PERMISSION"; "REVOKE"]
     ∨ "REVOKE" ∈ ["PERMISSION"; "REVOKE"])
  ∧ ∃ f, call (elements MUTATING_KEYWORDS_init)
           (check_sql_injection_risk "revoke all on t from u") = Some [f].
Proof.
  assert (call (elements MUTATING_KEYWORDS_init)
            (detect_mutating_keywords "revoke all on t from u")
          = Some ["PERMISSION"; "REVOKE"]) as H by by vm_compute.
  assert ("DROP" ∈ ["PERMISSION"; "REVOKE"] ∨ "TRUNCATE" ∈ ["PERMISSION"; "REVOKE"]
          ∨ "GRANT" ∈ ["PERMISSION"; "REVOKE"]
          ∨ "REVOKE" ∈ ["PERMISSION"; "REVOKE"]) as Hk.
  { do 3 right. repeat constructor. }
  split; [reflexivity|]. split; [exact H|]. split; [exact Hk|].
  exact (destructive_keyword_implies_finding _ "revoke all on t from u" _
           (reflexivity _) H Hk).
Defined.



(** ** A DDL statement names its verb *)

Lemma lastp_is_Some c t : lastp (Some c) t ≠ None.
Proof. revert c. induction t as [|x t IH]; intros c; [done|apply IH]. Qed.

Lemma lastp_None_nil pre : lastp None pre = None → pre = [].
Proof. destruct pre as [|c pre]; [done|]. intros H. by apply lastp_is_Some in H. Qed.

Lemma blank_before lead : blank_run lead → word_before (lastp None lead) = false.
Proof. destruct lead; [done|]. by apply lastp_blank. Qed.

Lemma blank_after w rest :
  w ≠ [] → blank_run w → word_after (w ++ rest) = false.
Proof.
  destruct w as [|x w]; [done|]. intros _ [Hx _]%Forall_cons. simpl.
  destruct (is_word x) eqn:E; [|done]. apply word_not_space in E. congruence.
Qed.

(** After leading blanks, a verb followed by something that is not a word
    character stands there as a whole word. *)
Lemma verb_at_start k lead v rest :
  word_after (chars k) = true → word_before (lastp None (chars k)) = true →
  blank_run lead → ci_eq k v → word_after rest = false →
  whole_word_occurrence k (lead ++ v ++ rest).
Proof.
  intros Hfirst Hlast Hlead Hv Hrest.
  assert (word_after v = true) as Hv1
    by by rewrite <-word_after_lower, Hv, word_after_lower.
  assert (v ≠ []) as Hne by by intros ->.
  exists lead, v, rest. split_and!; [done|done| |].
  - unfold boundary. rewrite blank_before by done.
    destruct v; [done|]. simpl in *. by rewrite Hv1.
  - unfold boundary.
    rewrite lastp_app, (lastp_word_lower _ None v (chars k)), Hlast, Hrest by done.
    done.
Qed.

Lemma ddl_names_verb sql :
  truthy (re_search DDL_REGEX_init sql) = true →
  ∃ k, k ∈ ["CREATE"; "DROP"; "ALTER"; "RENAME"; "TRUNCATE"]
       ∧ whole_word_occurrence k (chars sql).
Proof.
  intros (pre & t & suf & Hs & H)%re_search_true. revert H.
  unfold DDL_REGEX_init, Group. cbn [c_re c_flags].
  intros (? & t1 & -> & [-> Hp] & H)%matches_seqs_cons.
  apply lastp_None_nil in Hp as ->.
  apply matches_seqs_cons in H as (lead & t2 & -> & [_ Hlead] & H).
  apply matches_seqs_cons in H as (body & ? & -> & Hbody & [-> Hb]).
  apply matches_alts in Hbody as (r & Hr & Hbody).
  simpl in Hs, Hb, Hbody. rewrite (right_id_L [] (++)) in Hs.
  repeat (apply elem_of_cons in Hr as [->|Hr]); [..|by apply elem_of_nil in Hr].
  1-4: apply matches_seqs_cons in Hbody as (v & t3 & -> & Hv & Hbody);
    apply matches_lits_ci in Hv; [|done];
    apply matches_seqs_cons in Hbody as (w & t4 & -> & [Hlen Hw] & _);
    assert (w ≠ []) by (intros ->; simpl in Hlen; lia);
    match type of Hv with ci_eq ?k _ => exists k end;
    (split; [repeat constructor|]);
    rewrite Hs, <-!(assoc_L (++));
    apply (verb_at_start _ lead v);
      [reflexivity|reflexivity|done|exact Hv|by apply blank_after].
  apply matches_lits_ci in Hbody; [|done].
  exists "TRUNCATE". split; [repeat constructor|].
  rewrite Hs, <-(assoc_L (++)).
  apply (verb_at_start _ lead body); [reflexivity|reflexivity|done|done|].
  rewrite (lastp_word_lower _ None body (chars "TRUNCATE")) in Hb.
  - destruct (word_after suf); [|done]. by destruct Hb.
  - intros ->. discriminate Hbody.
  - done.
Qed.

Lemma ddl_label_search T sql :
  "DDL" ∈ category_labels T sql →
  truthy (re_search (DDL_REGEX T) sql) = true.
Proof.
  unfold category_labels. destruct (truthy (re_search (DDL_REGEX T) sql));
    [done|].
  destruct (truthy _), (truthy _), (truthy _); simpl; intros Hin;
    repeat (apply elem_of_cons in Hin as [Hin|Hin]; [discriminate Hin|]);
    by apply elem_of_nil in Hin.
Qed.

(** X8.  Whenever the label DDL is reported, the verb that made the
    statement a DDL statement -- CREATE, DROP, ALTER, RENAME or TRUNCATE --
    is reported as a keyword too. *)
Theorem ddl_reports_its_verb kw_iter sql labels :
  kw_iter ≡ₚ elements MUTATING_KEYWORDS_init →
  call kw_iter (detect_mutating_keywords sql) = Some labels →
  "DDL" ∈ labels →
  ∃ k, k ∈ ["CREATE"; "DROP"; "ALTER"; "RENAME"; "TRUNCATE"] ∧ k ∈ labels.
Proof.
  intros Hiter Hcall Hddl.
  destruct (detect_mutating_keywords_labels kw_iter sql Hiter)
    as (kws & Hcall' & _ & _ & Hm).
  assert (truthy (re_search DDL_REGEX_init sql) = true) as Hsearch.
  { rewrite Hcall' in Hcall. apply (inj Some) in Hcall as <-.
    apply elem_of_app in Hddl as [Hcat|[Hk _]%Hm].
    - by apply ddl_label_search in Hcat.
    - exfalso. revert Hk. rewrite keyword_in_set_iff.
      apply (bool_decide_unpack _). by vm_compute. }
  apply ddl_names_verb in Hsearch as (k & Hk & Hocc).
  exists k. split; [done|].
  apply (keyword_label_iff _ _ _ _ Hiter Hcall); [|done].
  repeat (apply elem_of_cons in Hk as [->|Hk]);
    [apply keyword_in_set; repeat constructor..|by apply elem_of_nil in Hk].
Qed.

Lemma ddl_reports_its_verb_witness :
  elements MUTATING_KEYWORDS_init ≡ₚ elements MUTATING_KEYWORDS_init
  ∧ call (elements MUTATING_KEYWORDS_init)
      (detect_mutating_keywords "  alter table t add c int")
    = Some ["DDL"; "ALTER"]
  ∧ "DDL" ∈ ["DDL"; "ALTER"]
  ∧ ∃ k, k ∈ ["CREATE"; "DROP"; "ALTER"; "RENAME"; "TRUNCATE"]
         ∧ k ∈ ["DDL"; "ALTER"].
Proof.
  assert (call (elements MUTATING_KEYWORDS_init)
            (detect_mutating_keywords "  alter table t add c int")
          = Some ["DDL"; "ALTER"]) as H by by vm_compute.
  assert ("DDL" ∈ ["DDL"; "ALTER"]) as Hd by repeat constructor.
  split; [reflexivity|]. split; [exact H|]. split; [exact Hd|].
  exact (ddl_reports_its_verb _ "  alter table t add c int" _
           (reflexivity _) H Hd).
Defined.

(** ** The case of letters does not matter *)

Lemma is_space_lower c : is_space (tolower c) = is_space c.
Proof. apply (bool_decide_eq_true_1 _). revert c. by apply ascii_all. Qed.

Lemma is_digit_lower c : is_digit (tolower c) = is_digit c.
Proof. apply (bool_decide_eq_true_1 _). revert c. by apply ascii_all. Qed.

Lemma caseless_b_spec c : caseless_b c = true → caseless c.
Proof. apply caseless_by_enumeration. Qed.

Lemma caseless_LF : caseless LF.
Proof. by apply caseless_by_enumeration. Qed.

Lemma in_class_same_letter fl k x x' :
  class_blind k = true → tolower x = tolower x' →
  in_class fl k x = in_class fl k x'.
Proof.
  intros Hk Hx. destruct k as [| | | | |c]; simpl.
  - by rewrite <-(is_space_lower x), Hx, is_space_lower.
  - by rewrite <-(is_space_lower x), Hx, is_space_lower.
  - by rewrite <-(is_digit_lower x), Hx, is_digit_lower.
  - by rewrite <-(tolower_word x), Hx, tolower_word.
  - f_equal. f_equal. apply bool_decide_ext.
    split; intros ->; first [by apply caseless_LF|symmetry; by apply caseless_LF].
  - f_equal. apply bool_decide_ext. apply caseless_b_spec in Hk.
    split; intros ->; first [by apply Hk|symmetry; by apply Hk].
Qed.

Lemma lit_eq_same_letter fl c x x' :
  ignorecase fl || caseless_b c = true → tolower x = tolower x' →
  lit_eq fl c x = true → lit_eq fl c x' = true.
Proof.
  unfold lit_eq. intros Hc Hx. destruct (ignorecase fl); simpl in Hc.
  - rewrite !bool_decide_eq_true. congruence.
  - apply caseless_b_spec in Hc. rewrite !bool_decide_eq_true.
    intros ->; first [by apply Hc|symmetry; by apply Hc].
Qed.

Lemma same_letters_sym a b : same_letters a b → same_letters b a.
Proof. done. Qed.

Lemma same_letters_app_inv t1 t2 t' :
  same_letters (t1 ++ t2) t' →
  ∃ t1' t2', t' = t1' ++ t2' ∧ same_letters t1 t1' ∧ same_letters t2 t2'.
Proof.
  unfold same_letters. rewrite fmap_app. intros H. symmetry in H.
  apply fmap_app_inv in H as (k1 & k2 & ? & ? & ->). eauto.
Qed.

Lemma same_letters_app t1 t2 t1' t2' :
  same_letters t1 t1' → same_letters t2 t2' →
  same_letters (t1 ++ t2) (t1' ++ t2').
Proof. unfold same_letters. rewrite !fmap_app. by intros -> ->. Qed.

Lemma same_letters_nil t : same_letters [] t → t = [].
Proof. by destruct t. Qed.

Lemma same_letters_cons_inv x t t' :
  same_letters (x :: t) t' →
  ∃ x' t0, t' = x' :: t0 ∧ tolower x = tolower x' ∧ same_letters t t0.
Proof. destruct t' as [|x' t0]; [done|]. intros [= ? ?]. eauto. Qed.

Lemma same_letters_lastp (p p' : option ascii) t t' :
  tolower <$> p = tolower <$> p' → same_letters t t' →
  tolower <$> lastp p t = tolower <$> lastp p' t'.
Proof.
  revert p p' t'. induction t as [|x t IH]; intros p p' t' Hp Ht.
  - by apply same_letters_nil in Ht as ->.
  - apply same_letters_cons_inv in Ht as (x' & t0 & -> & Hx & Ht).
    simpl. apply IH; [|done]. simpl. by rewrite Hx.
Qed.

Lemma same_letter_word_before (p p' : option ascii) :
  tolower <$> p = tolower <$> p' → word_before p = word_before p'.
Proof.
  destruct p as [x|], p' as [x'|]; try done. intros [= Hx]. simpl.
  by rewrite <-(tolower_word x), Hx, tolower_word.
Qed.

Lemma same_letters_word_after s s' :
  same_letters s s' → word_after s = word_after s'.
Proof.
  intros H. by rewrite <-(word_after_lower s), H, word_after_lower.
Qed.

Lemma same_letters_Forall fl k t t' :
  class_blind k = true → same_letters t t' →
  Forall (λ x, in_class fl k x = true) t →
  Forall (λ x, in_class fl k x = true) t'.
Proof.
  intros Hk. revert t'. induction t as [|x t IH]; intros t' Ht Hall.
  - by apply same_letters_nil in Ht as ->.
  - apply same_letters_cons_inv in Ht as (x' & t0 & -> & Hx & Ht).
    apply Forall_cons in Hall as [Hx1 Hall]. constructor; [|by apply IH].
    by rewrite <-(in_class_same_letter fl k x x').
Qed.

(** A pattern that cannot tell the case of letters matches a text exactly
    when it matches the same text in another case. *)
Lemma matches_same_letters fl r :
  case_blind fl r = true →
  ∀ p t s p' t' s',
    tolower <$> p = tolower <$> p' → same_letters t t' → same_letters s s' →
    matches fl r p t s → matches fl r p' t' s'.
Proof.
  induction r as [|c|k|r1 IH1 r2 IH2|r1 IH1 r2 IH2|g n k| | | |r IH|r IH];
    simpl; intros Hblind p t s p' t' s' Hp Ht Hs.
  - intros ->. by apply same_letters_nil in Ht.
  - intros (x & -> & Hx).
    apply same_letters_cons_inv in Ht as (x' & t0 & -> & Hxx & Ht).
    apply same_letters_nil in Ht as ->. exists x'. split; [done|].
    by eapply lit_eq_same_letter.
  - intros (x & -> & Hx).
    apply same_letters_cons_inv in Ht as (x' & t0 & -> & Hxx & Ht).
    apply same_letters_nil in Ht as ->. exists x'. split; [done|].
    by rewrite <-(in_class_same_letter fl k x x').
  - apply andb_true_iff in Hblind as [H1 H2].
    intros (t1 & t2 & -> & Hm1 & Hm2).
    apply same_letters_app_inv in Ht as (t1' & t2' & -> & Ht1 & Ht2).
    exists t1', t2'. split_and!; [done| |].
    + eapply (IH1 H1); [done|done| |exact Hm1]. by apply same_letters_app.
    + eapply (IH2 H2); [|done|done|exact Hm2]. by apply same_letters_lastp.
  - apply andb_true_iff in Hblind as [H1 H2].
    intros [Hm|Hm]; [left; by eapply (IH1 H1)|right; by eapply (IH2 H2)].
  - intros [Hlen Hall]. split.
    + apply (f_equal length) in Ht. rewrite !length_fmap in Ht. lia.
    + by eapply same_letters_Forall.
  - intros [-> ->]. apply same_letters_nil in Ht as ->.
    by destruct p'.
  - intros [-> Hend]. apply same_letters_nil in Ht as ->. split; [done|].
    destruct Hend as [->| ->].
    + left. by apply same_letters_nil in Hs.
    + right. apply same_letters_cons_inv in Hs as (x' & t0 & -> & Hx & Hs).
      apply same_letters_nil in Hs as ->. f_equal.
      first [by apply caseless_LF|symmetry; by apply caseless_LF].
  - intros [-> Hb]. apply same_letters_nil in Ht as ->. split; [done|].
    by rewrite <-(same_letter_word_before p p'),
      <-(same_letters_word_after s s').
  - intros (-> & t1 & s1 & -> & Hm). apply same_letters_nil in Ht as ->.
    split; [done|].
    apply same_letters_app_inv in Hs as (t1' & s1' & -> & Ht1 & Hs1).
    exists t1', s1'. split; [done|]. by eapply (IH Hblind).
  - intros (-> & Hno). apply same_letters_nil in Ht as ->. split; [done|].
    intros (t1' & s1' & -> & Hm). apply Hno.
    apply same_letters_sym, same_letters_app_inv in Hs
      as (t1 & s1 & -> & Ht1 & Hs1).
    exists t1, s1. split; [done|]. by eapply (IH Hblind); [| | |exact Hm].
Qed.

Lemma re_search_same_letters p a b :
  case_blind (c_flags p) (c_re p) = true →
  same_letters (chars a) (chars b) →
  truthy (re_search p a) = truthy (re_search p b).
Proof.
  intros Hblind.
  assert (∀ a b, same_letters (chars a) (chars b) →
                 truthy (re_search p a) = true →
                 truthy (re_search p b) = true) as Himp.
  { clear a b. intros a b Hab (pre & t & suf & Hs & Hm)%re_search_true.
    apply re_search_true. unfold same_letters in Hab. rewrite Hs in Hab.
    apply same_letters_app_inv in Hab as (pre' & r' & -> & Hpre & Hr).
    apply same_letters_app_inv in Hr as (t' & suf' & -> & Ht & Hsuf).
    exists pre', t', suf'. split; [done|].
    eapply (matches_same_letters _ _ Hblind); [|done|done|exact Hm].
    by apply same_letters_lastp. }
  intros Hab. destruct (truthy (re_search p a)) eqn:Ea.
  - symmetry. by apply (Himp a b).
  - destruct (truthy (re_search p b)) eqn:Eb; [|done].
    apply (Himp b a) in Eb; [congruence|done].
Qed.





(** X10.  The bypass detector cannot tell the case of letters either. *)
Theorem bypass_ignores_case kw_iter a b :
  same_letters (chars a) (chars b) →
  call kw_iter (detect_transaction_bypass_attempt a)
  = call kw_iter (detect_transaction_bypass_attempt b).
Proof.
  intros Hab. rewrite !bypass_call. f_equal.
  by rewrite (re_search_same_letters commit_bypass_pattern a b),
    (re_search_same_letters multiple_statements a b).
Qed.

Lemma bypass_ignores_case_witness :
  same_letters (chars "commit; drop table t") (chars "COMMIT; Drop Table T")
  ∧ call source_order (detect_transaction_bypass_attempt "commit; drop table t")
    = call source_order
        (detect_transaction_bypass_attempt "COMMIT; Drop Table T").
Proof.
  assert (same_letters (chars "commit; drop table t")
            (chars "COMMIT; Drop Table T")) as H by reflexivity.
  split; [exact H|]. exact (bypass_ignores_case source_order _ _ H).
Defined.


(** Two subjects on which the four anchored rules agree and in which the
    same keywords stand as whole words get the same labels. *)
Lemma detect_labels_agree kw_iter a b :
  kw_iter ≡ₚ elements MUTATING_KEYWORDS_init →
  category_labels (module_init kw_iter) a
  = category_labels (module_init kw_iter) b →
  (∀ k, k ∈ MUTATING_KEYWORDS_init →
        whole_word_occurrence k (chars a) ↔ whole_word_occurrence k (chars b)) →
  call kw_iter (detect_mutating_keywords a)
  = call kw_iter (detect_mutating_keywords b).
Proof.
  intros Hiter Hcat Hocc.
  destruct (detect_mutating_keywords_labels kw_iter a Hiter)
    as (kws & -> & Hs & Hn & Hm).
  destruct (detect_mutating_keywords_labels kw_iter b Hiter)
    as (kws' & -> & Hs' & Hn' & Hm').
  rewrite Hcat. do 2 f_equal. apply (Sorted_unique String.le); [done..|].
  apply NoDup_Permutation; [done..|]. intros k. rewrite Hm, Hm'.
  split; intros [Hk ?]; (split; [done|]); by apply (Hocc k Hk).
Qed.



(** ** Leading blanks do not matter to the category matcher *)

Lemma digit_not_space c : is_digit c = true → is_space c = false.
Proof.
  intros H. apply negb_true_iff. revert H. apply implb_true_iff.
  revert c. by apply ascii_all.
Qed.

Lemma lastp_nonempty p q t : t ≠ [] → lastp p t = lastp q t.
Proof. by destruct t. Qed.

Lemma matches_prev_free fl r :
  prev_free r = true →
  ∀ p q t s, matches fl r p t s → matches fl r q t s.
Proof.
  induction r as [|c|k|r1 IH1 r2 IH2|r1 IH1 r2 IH2|g n k| | | |r IH|r IH];
    simpl; intros Hfree p q t s; try done.
  - apply andb_true_iff in Hfree as [H1 H2].
    intros (t1 & t2 & -> & Hm1 & Hm2). exists t1, t2.
    split_and!; [done|by eapply (IH1 H1)|by eapply (IH2 H2)].
  - apply andb_true_iff in Hfree as [H1 H2].
    intros [Hm|Hm]; [left; by eapply (IH1 H1)|right; by eapply (IH2 H2)].
  - intros (-> & t1 & s1 & -> & Hm). split; [done|].
    exists t1, s1. split; [done|]. by eapply (IH Hfree).
  - intros (-> & Hno). split; [done|]. intros (t1 & s1 & -> & Hm).
    apply Hno. exists t1, s1. split; [done|]. by eapply (IH Hfree).
Qed.

Lemma matches_starts_nonblank fl r :
  starts_nonblank r = true →
  ∀ p t s, matches fl r p t s → ∃ c t0, t = c :: t0 ∧ is_space c = false.
Proof.
  induction r as [|c|k|r1 IH1 r2 IH2|r1 IH1 r2 IH2|g n k| | | |r IH|r IH];
    simpl; intros Hstart p t s; try done.
  - intros (x & -> & Hx). exists x, []. split; [done|].
    apply negb_true_iff in Hstart. unfold lit_eq in Hx.
    destruct (ignorecase fl); apply bool_decide_eq_true in Hx.
    + by rewrite <-is_space_lower, Hx, is_space_lower.
    + by subst.
  - intros (x & -> & Hx). exists x, []. split; [done|].
    destruct k; try done; simpl in Hx.
    + by apply negb_true_iff.
    + by apply digit_not_space.
    + by apply word_not_space.
  - intros (t1 & t2 & -> & Hm1 & _).
    apply (IH1 Hstart) in Hm1 as (c & t0 & -> & Hc). by exists c, (t0 ++ t2).
  - apply andb_true_iff in Hstart as [H1 H2].
    intros [Hm|Hm]; [by eapply (IH1 H1)|by eapply (IH2 H2)].
  - apply andb_true_iff in Hstart as [Hn Hk]. apply Nat.ltb_lt in Hn.
    intros [Hlen Hall]. destruct t as [|x t]; [simpl in Hlen; lia|].
    apply Forall_cons in Hall as [Hx _]. exists x, t. split; [done|].
    destruct k; try done; simpl in Hx.
    + by apply negb_true_iff.
    + by apply digit_not_space.
    + by apply word_not_space.
Qed.

(** The shape of the four anchored rules: leading blanks, then the body,
    then a word boundary. *)
Lemma anchored_search fl g sql :
  prev_free g = true → starts_nonblank g = true →
  truthy (re_search (Compiled fl (seqs [Bol; ws0; g; WordB])) sql) = true ↔
  ∃ lead body suf,
    chars sql = lead ++ body ++ suf ∧ blank_run lead
    ∧ matches fl g None body suf
    ∧ word_before (lastp None body) ≠ word_after suf.
Proof.
  intros Hfree Hstart. rewrite re_search_true. cbn [c_re c_flags]. split.
  - intros (pre & t & suf & Hs & H).
    apply matches_seqs_cons in H as (? & t1 & -> & [-> Hp] & H).
    apply lastp_None_nil in Hp as ->.
    apply matches_seqs_cons in H as (lead & t2 & -> & [_ Hlead] & H).
    apply matches_seqs_cons in H as (body & ? & -> & Hbody & [-> Hb]).
    simpl in Hs, Hb, Hbody.
    rewrite (right_id_L [] (++)), <-(assoc_L (++)) in Hs.
    exists lead, body, suf. split_and!; [done|exact Hlead| |].
    + by eapply matches_prev_free.
    + apply (matches_starts_nonblank _ _ Hstart) in Hbody
        as (c & t0 & -> & _).
      by rewrite (lastp_nonempty _ (lastp None lead)).
  - intros (lead & body & suf & Hs & Hlead & Hbody & Hb).
    exists [], (lead ++ body), suf.
    split; [by rewrite Hs, <-(assoc_L (++))|].
    apply matches_seqs_cons. exists [], (lead ++ body).
    split_and!; [done|done|].
    apply matches_seqs_cons. exists lead, body.
    split_and!; [done|by split; [simpl; lia|]|].
    apply matches_seqs_cons. exists body, [].
    split_and!; [by rewrite (right_id_L [] (++))| |].
    + simpl. by eapply matches_prev_free.
    + split; [done|].
      pose proof (matches_starts_nonblank _ _ Hstart _ _ _ Hbody)
        as (c & t0 & -> & _).
      by rewrite (lastp_nonempty _ None).
Qed.

Lemma anchored_search_leading_blanks fl g w sql :
  prev_free g = true → starts_nonblank g = true → blank_run w →
  truthy (re_search (Compiled fl (seqs [Bol; ws0; g; WordB]))
            (text (w ++ chars sql)))
  = truthy (re_search (Compiled fl (seqs [Bol; ws0; g; WordB])) sql).
Proof.
  intros Hfree Hstart Hw.
  apply eq_true_iff_eq. rewrite !anchored_search, chars_text by done. split.
  - intros (lead & body & suf & Hs & Hlead & Hbody & Hb).
    pose proof (matches_starts_nonblank _ _ Hstart _ _ _ Hbody)
      as (c & t0 & -> & Hc).
    apply app_eq_inv in Hs as [(k & -> & Hk)|(k & -> & Hk)].
    + destruct k as [|x k].
      * exists [], (c :: t0), suf. simpl in Hk.
        split_and!; [by rewrite <-Hk|constructor|done|done].
      * simpl in Hk. injection Hk as -> _.
        apply Forall_app in Hw as [_ [Hx _]%Forall_cons]. congruence.
    + exists k, (c :: t0), suf. apply Forall_app in Hlead as [_ ?].
      by split_and!.
  - intros (lead & body & suf & -> & Hlead & Hbody & Hb).
    exists (w ++ lead), body, suf.
    split_and!; [by rewrite <-(assoc_L (++))|by apply Forall_app|done..].
Qed.

Lemma blank_prefix_before w pre :
  blank_run w →
  word_before (lastp None (w ++ pre)) = word_before (lastp None pre).
Proof.
  intros Hw. destruct pre as [|c pre].
  - by rewrite (right_id_L [] (++)), blank_before.
  - by rewrite lastp_app, (lastp_nonempty _ None).
Qed.

Lemma whole_word_leading_blanks k w s :
  word_after (chars k) = true → blank_run w →
  whole_word_occurrence k (w ++ s) ↔ whole_word_occurrence k s.
Proof.
  intros Hk Hw. unfold whole_word_occurrence, boundary. split.
  - intros (pre & t & suf & Hs & Ht & Hb1 & Hb2).
    assert (word_after t = true) as Hword
      by by rewrite <-word_after_lower, Ht, word_after_lower.
    destruct t as [|c t]; [done|]. simpl in Hword.
    apply app_eq_inv in Hs as [(d & -> & Hd)|(d & -> & Hd)].
    + destruct d as [|x d].
      * rewrite (right_id_L [] (++)) in Hw. simpl in Hd.
        exists [], (c :: t), suf. split_and!; [by rewrite <-Hd|done| |].
        -- by rewrite blank_before in Hb1.
        -- by rewrite lastp_app, (lastp_nonempty _ None) in Hb2.
      * simpl in Hd. injection Hd as -> _.
        apply Forall_app in Hw as [_ [Hx _]%Forall_cons].
        apply word_not_space in Hword. congruence.
    + exists d, (c :: t), suf. split_and!; [done|done| |].
      * by rewrite <-(blank_prefix_before w d).
      * by rewrite lastp_app, (lastp_nonempty _ (lastp None (w ++ d))),
          <-lastp_app.
  - intros (pre & t & suf & -> & Ht & Hb1 & Hb2).
    exists (w ++ pre), t, suf. split_and!; [by rewrite <-(assoc_L (++))|done| |].
    + by rewrite blank_prefix_before.
    + assert (t ≠ []) as Hne.
      { intros ->. unfold ci_eq in Ht. destruct (chars k); done. }
      by rewrite lastp_app, (lastp_nonempty _ (lastp None pre)), <-lastp_app.
Qed.

(** X12.  Blanks put in front of a statement do not change its labels. *)
Theorem leading_blanks_same_labels kw_iter w sql :
  kw_iter ≡ₚ elements MUTATING_KEYWORDS_init →
  blank_run w →
  call kw_iter (detect_mutating_keywords (text (w ++ chars sql)))
  = call kw_iter (detect_mutating_keywords sql).
Proof.
  intros Hiter Hw. apply detect_labels_agree; [done| |].
  - unfold category_labels.
    cbn [module_init DDL_REGEX PERMISSION_REGEX SYSTEM_REGEX
           TRANSACTION_CONTROL_REGEX].
    unfold DDL_REGEX_init, PERMISSION_REGEX_init, SYSTEM_REGEX_init,
      TRANSACTION_CONTROL_REGEX_init.
    by rewrite !anchored_search_leading_blanks.
  - intros k Hk. rewrite chars_text. apply whole_word_leading_blanks; [|done].
    apply elem_of_list_to_set, keyword_shape_ok in Hk.
    by apply andb_true_iff in Hk as [? _].
Qed.

Lemma leading_blanks_same_labels_witness :
  elements MUTATING_KEYWORDS_init ≡ₚ elements MUTATING_KEYWORDS_init
  ∧ blank_run [" "%char; LF]
  ∧ call (elements MUTATING_KEYWORDS_init)
      (detect_mutating_keywords (text ([" "%char; LF] ++ chars "grant all on t")))
    = call (elements MUTATING_KEYWORDS_init)
        (detect_mutating_keywords "grant all on t").
Proof.
  assert (blank_run [" "%char; LF]) as H by by repeat constructor.
  split; [reflexivity|]. split; [exact H|].
  exact (leading_blanks_same_labels _ _ "grant all on t" (reflexivity _) H).
Defined.

(** ** The anchored rules need a word at the start *)





